(** * Aseba: the compiler's syntax tree (compiler/tree.h) and the general
    helpers (common/utils/utils.h)

    A shallow embedding of the two headers.  Integers of the C++ code are
    [Z]; the 64-bit unsigned [UnifiedTime::Value] has its wrap-around
    written out.  Nodes of the syntax tree are objects in a heap,
    addressed by locations, because the copy operations of the tree are
    about which objects are shared and which are new; the passes that
    only read the tree are functions of the tree a location stands
    for. *)

From Stdlib Require Import ZArith Lia.
From stdpp Require Import gmap strings list fin_maps.
From Corelib Require PrimFloat.

Set Warnings "-register-all".

Local Open Scope Z_scope.

(** ** common/utils/utils.h *)

Module Utils.

(** *** [clamp]

    [template<typename T> T clamp(T v, T minV, T maxV)] uses only
    [operator<] and [operator>] of [T]; both are taken as boolean
    tests. *)
Section Clamp.
Context {T : Type} (lt gt : T → T → bool).

Definition clamp (v minV maxV : T) : T :=
  if lt v minV then minV else (if gt v maxV then maxV else v).
End Clamp.

(** The instance at the integers ([int], [unsigned], [long]... all compare
    as their mathematical values). *)
Definition clampZ : Z → Z → Z → Z := clamp Z.ltb Z.gtb.

(** *** [UnifiedTime] *)

(** [typedef long long unsigned Value]: a value in [0, 2^64). *)
Definition Value_modulus : Z := 2 ^ 64.
Definition is_Value (z : Z) : Prop := 0 ≤ z < Value_modulus.
Definition wrapValue (z : Z) : Z := z mod Value_modulus.

Record UnifiedTime : Type := mkUnifiedTime { value : Z }.

(** What a call does: it returns, or [assert] stops the program. *)
Inductive checked (A : Type) : Type :=
| Returned (a : A)
| AssertionFailed.
Arguments Returned {A} a.
Arguments AssertionFailed {A}.

(** Modelled from the spec: the body of the constructor
    [UnifiedTime(Value ms)] is not in utils.h (it is only declared, with
    the comment "Constructor, from a specific number of ms"); [value] is
    "time", in milliseconds, so the constructor stores [ms]. *)
Definition UnifiedTime_from_ms (ms : Z) : UnifiedTime :=
  {| value := ms |}.

(** Unsigned 64-bit arithmetic of [Value]. *)
Definition Value_add (a b : Z) : Z := wrapValue (a + b).
Definition Value_sub (a b : Z) : Z := wrapValue (a - b).
Definition Value_mul (a b : Z) : Z := wrapValue (a * b).
Definition Value_div (a b : Z) : Z := wrapValue (a ÷ b).

Definition op_sub_assign (this that : UnifiedTime) : UnifiedTime :=
  {| value := Value_sub (value this) (value that) |}.
Definition op_mul_assign (this : UnifiedTime) (factor : Z) : UnifiedTime :=
  {| value := Value_mul (value this) factor |}.

(** [void operator /=(const long long unsigned factor)
      { assert(factor); value /= factor; }] *)
Definition op_div_assign (this : UnifiedTime) (factor : Z)
  : checked UnifiedTime :=
  if factor =? 0 then AssertionFailed
  else Returned {| value := Value_div (value this) factor |}.

(** [UnifiedTime operator /(const long long unsigned factor) const
      { assert(factor); return UnifiedTime(value / factor); }] *)
Definition op_div (this : UnifiedTime) (factor : Z) : checked UnifiedTime :=
  if factor =? 0 then AssertionFailed
  else Returned (UnifiedTime_from_ms (Value_div (value this) factor)).

Definition op_add (this that : UnifiedTime) : UnifiedTime :=
  UnifiedTime_from_ms (Value_add (value this) (value that)).
Definition op_sub (this that : UnifiedTime) : UnifiedTime :=
  UnifiedTime_from_ms (Value_sub (value this) (value that)).
Definition op_mul (this : UnifiedTime) (factor : Z) : UnifiedTime :=
  UnifiedTime_from_ms (Value_mul (value this) factor).

End Utils.

(** ** compiler/tree.h: the data model *)

Module Tree.

(** Modelled from the spec: [SourcePos] is declared in compiler.h, which
    is not among the sources; the specification gives a source position
    as row, column and character offset.  The tree only stores and copies
    positions. *)
Record SourcePos : Type := mkSourcePos {
  row : Z;
  column : Z;
  character : Z
}.

(** Modelled from the spec: the enumerations [AsebaBinaryOperator] and
    [AsebaUnaryOperator] are declared in common/consts.h, which is not
    among the sources.  The specification groups the binary operators
    into arithmetic (with the shifts), bitwise, comparison and logical
    ones, as the factory functions of [BinaryArithmeticNode] do, and
    lists negation, absolute value, bitwise not and logical not as the
    unary ones. *)
Inductive AsebaBinaryOperator : Type :=
| ASEBA_OP_SHIFT_LEFT | ASEBA_OP_SHIFT_RIGHT
| ASEBA_OP_ADD | ASEBA_OP_SUB
| ASEBA_OP_MULT | ASEBA_OP_DIV | ASEBA_OP_MOD
| ASEBA_OP_BIT_OR | ASEBA_OP_BIT_XOR | ASEBA_OP_BIT_AND
| ASEBA_OP_EQUAL | ASEBA_OP_NOT_EQUAL
| ASEBA_OP_BIGGER_THAN | ASEBA_OP_BIGGER_EQUAL_THAN
| ASEBA_OP_SMALLER_THAN | ASEBA_OP_SMALLER_EQUAL_THAN
| ASEBA_OP_OR | ASEBA_OP_AND.

Inductive AsebaUnaryOperator : Type :=
| ASEBA_UNARY_OP_SUB | ASEBA_UNARY_OP_ABS
| ASEBA_UNARY_OP_BIT_NOT | ASEBA_UNARY_OP_NOT.

(** [enum ReturnType { TYPE_UNIT = 0, TYPE_BOOL, TYPE_INT }] *)
Inductive ReturnType : Type := TYPE_UNIT | TYPE_BOOL | TYPE_INT.

#[global] Instance ReturnType_eq_dec : EqDecision ReturnType.
Proof. solve_decision. Defined.

(** The concrete classes derived from [Node], each with the data members
    it declares itself.  [Node] and [VectorNode] are abstract.  The
    members of the base class, [children] and [sourcePos], are in the
    record [Node] below. *)
Inductive Variant : Type :=
| BlockNode
| ProgramNode
| AssignmentNode
| IfWhenNode (edgeSensitive : bool) (endLine : Z)
| FoldedIfWhenNode (op : AsebaBinaryOperator) (edgeSensitive : bool) (endLine : Z)
| WhileNode
| FoldedWhileNode (op : AsebaBinaryOperator)
| EventDeclNode (eventId : Z)
| EmitNode (eventId arrayAddr arraySize : Z)
| SubDeclNode (subroutineId : Z)
| CallSubNode (subroutineId : Z)
| BinaryArithmeticNode (op : AsebaBinaryOperator)
| UnaryArithmeticNode (op : AsebaUnaryOperator)
| ImmediateNode (value : Z)
| StoreNode (varAddr : Z)
| LoadNode (varAddr : Z)
| ArrayWriteNode (arrayAddr arraySize : Z) (arrayName : string)
| ArrayReadNode (arrayAddr arraySize : Z) (arrayName : string)
| CallNode (funcId : Z) (argumentsAddr : list Z)
| ReturnNode
| StaticVectorNode (values : list Z)
| MemoryVectorNode (arrayAddr arraySize : Z) (arrayName : string) (write : bool).

(** A [Node*] is a location; a location with no object in the heap is a
    null pointer. *)
Abbreviation loc := positive.

(** An object of a class derived from [Node]:
    [NodesVector children; SourcePos sourcePos;] and the members of the
    derived class.  [children] is the only member of any node class that
    holds pointers to nodes. *)
Record Node : Type := mkNode {
  variant : Variant;
  children : list loc;
  sourcePos : SourcePos
}.

Abbreviation heap := (gmap positive Node).

(** [Error(sourcePos, message)], thrown by the tree; a type violation
    names the expected and the found type. *)
Inductive Error : Type :=
| Error_at (pos : SourcePos) (message : string)
| TypeError_at (pos : SourcePos) (expected found : ReturnType).

(** What a call does: it returns a result, throws, dereferences a pointer
    to no object (undefined behaviour), or the model's recursion bound
    was too small. *)
Inductive outcome (A : Type) : Type :=
| Returns (a : A)
| Throws (e : Error)
| Undefined
| OutOfFuel.
Arguments Returns {A} a.
Arguments Throws {A} e.
Arguments Undefined {A}.
Arguments OutOfFuel {A}.

#[global] Instance outcome_ret : MRet outcome := λ A a, Returns a.
#[global] Instance outcome_bind : MBind outcome := λ A B f m,
  match m with
  | Returns a => f a
  | Throws e => Throws e
  | Undefined => Undefined
  | OutOfFuel => OutOfFuel
  end.

(** [*p] *)
Definition deref (p : loc) (h : heap) : outcome Node :=
  match h !! p with
  | Some n => Returns n
  | None => Undefined
  end.

(** [new T(...)]: the object is placed at a location that holds none. *)
Definition alloc (n : Node) (h : heap) : loc * heap :=
  let p := fresh (dom h) in (p, <[p := n]> h).

(** [children.push_back(c)] *)
Definition push_back (c : loc) (n : Node) : Node :=
  {| variant := variant n; children := children n ++ [c]; sourcePos := sourcePos n |}.

Definition set_children (cs : list loc) (n : Node) : Node :=
  {| variant := variant n; children := cs; sourcePos := sourcePos n |}.

(** The pointer-valued members of an object. *)
Definition references (n : Node) : list loc := children n.

(** *** Constructors from another node *)

(** [LoadNode(const StoreNode* store) :
      Node(store->sourcePos), varAddr(store->varAddr) {}] *)
Definition LoadNode_from_store (store : loc) (h : heap) : outcome Node :=
  s ← deref store h;
  match variant s with
  | StoreNode varAddr =>
      Returns {| variant := LoadNode varAddr; children := []; sourcePos := sourcePos s |}
  | _ => Undefined
  end.

(** [dynamic_cast<ImmediateNode*>(p) != 0], with the object found *)
Definition dynamic_cast_ImmediateNode (p : loc) (h : heap) : option Node :=
  match h !! p with
  | Some n => match variant n with ImmediateNode _ => Some n | _ => None end
  | None => None
  end.

(** [ImmediateNode( *index )], the implicit copy constructor: the members
    of [Node] and [value] are copied. *)
Definition copy_ImmediateNode (index : Node) : Node :=
  {| variant := variant index; children := children index; sourcePos := sourcePos index |}.

Definition non_immediate_index : string :=
  "Such operation is not permitted with non-immediate index".

(** [ArrayReadNode(const ArrayWriteNode* write) :
      Node(write->sourcePos), arrayAddr(write->arrayAddr),
      arraySize(write->arraySize), arrayName(write->arrayName)
    {
      ImmediateNode* index;
      if (write->children.size() > 0 &&
          (index = dynamic_cast<ImmediateNode*> (write->children[0])) != 0)
        children.push_back(new ImmediateNode( *index ));
      else
        throw Error(sourcePos, WFormatableString(L"Such operation ..."));
    }]
    The result is the constructed object and the heap with the copy of
    the index. *)
Definition ArrayReadNode_from_write (write : loc) (h : heap) : outcome (Node * heap) :=
  w ← deref write h;
  match variant w with
  | ArrayWriteNode arrayAddr arraySize arrayName =>
      let this :=
        {| variant := ArrayReadNode arrayAddr arraySize arrayName;
           children := [];
           sourcePos := sourcePos w |} in
      match children w with
      | c :: _ =>
          match dynamic_cast_ImmediateNode c h with
          | Some index =>
              let '(i, h') := alloc (copy_ImmediateNode index) h in
              Returns (push_back i this, h')
          | None => Throws (Error_at (sourcePos this) non_immediate_index)
          end
      | [] => Throws (Error_at (sourcePos this) non_immediate_index)
      end
  | _ => Undefined
  end.

(** *** [shallowCopy] *)

(** [virtual X* shallowCopy() { return new X( *this ); }] in every class
    [X]: the implicit copy constructor of [X] copies the members of the
    base [Node] (the vector of child pointers and the source position)
    and the members of [X]. *)
Definition copy_construct (this : Node) : Node :=
  match variant this with
  | BlockNode => mkNode BlockNode (children this) (sourcePos this)
  | ProgramNode => mkNode ProgramNode (children this) (sourcePos this)
  | AssignmentNode => mkNode AssignmentNode (children this) (sourcePos this)
  | IfWhenNode edgeSensitive endLine =>
      mkNode (IfWhenNode edgeSensitive endLine) (children this) (sourcePos this)
  | FoldedIfWhenNode op edgeSensitive endLine =>
      mkNode (FoldedIfWhenNode op edgeSensitive endLine) (children this) (sourcePos this)
  | WhileNode => mkNode WhileNode (children this) (sourcePos this)
  | FoldedWhileNode op => mkNode (FoldedWhileNode op) (children this) (sourcePos this)
  | EventDeclNode eventId => mkNode (EventDeclNode eventId) (children this) (sourcePos this)
  | EmitNode eventId arrayAddr arraySize =>
      mkNode (EmitNode eventId arrayAddr arraySize) (children this) (sourcePos this)
  | SubDeclNode subroutineId =>
      mkNode (SubDeclNode subroutineId) (children this) (sourcePos this)
  | CallSubNode subroutineId =>
      mkNode (CallSubNode subroutineId) (children this) (sourcePos this)
  | BinaryArithmeticNode op =>
      mkNode (BinaryArithmeticNode op) (children this) (sourcePos this)
  | UnaryArithmeticNode op =>
      mkNode (UnaryArithmeticNode op) (children this) (sourcePos this)
  | ImmediateNode value => mkNode (ImmediateNode value) (children this) (sourcePos this)
  | StoreNode varAddr => mkNode (StoreNode varAddr) (children this) (sourcePos this)
  | LoadNode varAddr => mkNode (LoadNode varAddr) (children this) (sourcePos this)
  | ArrayWriteNode arrayAddr arraySize arrayName =>
      mkNode (ArrayWriteNode arrayAddr arraySize arrayName) (children this) (sourcePos this)
  | ArrayReadNode arrayAddr arraySize arrayName =>
      mkNode (ArrayReadNode arrayAddr arraySize arrayName) (children this) (sourcePos this)
  | CallNode funcId argumentsAddr =>
      mkNode (CallNode funcId argumentsAddr) (children this) (sourcePos this)
  | ReturnNode => mkNode ReturnNode (children this) (sourcePos this)
  | StaticVectorNode values =>
      mkNode (StaticVectorNode values) (children this) (sourcePos this)
  | MemoryVectorNode arrayAddr arraySize arrayName write =>
      mkNode (MemoryVectorNode arrayAddr arraySize arrayName write)
             (children this) (sourcePos this)
  end.

Definition shallowCopy (this : loc) (h : heap) : outcome (loc * heap) :=
  n ← deref this h;
  Returns (alloc (copy_construct n) h).

(** *** Trees

    The tree an object stands for: the node with, in place of each child
    pointer, the tree of the child.  The passes that only read the tree
    are functions of this value. *)
Inductive Ast : Type :=
| ast (v : Variant) (pos : SourcePos) (sub : list Ast).

Fixpoint height (t : Ast) : nat :=
  match t with
  | ast _ _ sub => S (foldr Nat.max 0%nat (map height sub))
  end.

(** [repr h p t]: in the heap [h] the pointer [p] is the root of the
    tree [t]. *)
Inductive repr (h : heap) : loc → Ast → Prop :=
| repr_node (p : loc) (n : Node) (sub : list Ast) :
    h !! p = Some n →
    Forall2 (repr h) (children n) sub →
    repr h p (ast (variant n) (sourcePos n) sub).

(** *** [deepCopy] *)

(** The loop of [deepCopy] over the children: each child is deep-copied
    in turn, left to right, in the heap the copies before it left. *)
Fixpoint deepCopy_children (deepCopy : loc → heap → outcome (loc * heap))
    (cs : list loc) (h : heap) : outcome (list loc * heap) :=
  match cs with
  | [] => Returns ([], h)
  | c :: cs' =>
      '(c', h1) ← deepCopy c h;
      '(cs'', h2) ← deepCopy_children deepCopy cs' h1;
      Returns (c' :: cs'', h2)
  end.

(** Modelled from the spec: the body of [Node::deepCopy] is not in
    tree.h.  "Deep copy: shallow-copy self, then recursively deep-copy
    each child": the copy made by [shallowCopy] gets, in place of each
    child pointer, a pointer to the deep copy of that child.  [fuel]
    bounds the depth of the recursion. *)
Fixpoint deepCopy (fuel : nat) (this : loc) (h : heap) : outcome (loc * heap) :=
  match fuel with
  | O => OutOfFuel
  | S fuel' =>
      '(newCopy, h1) ← shallowCopy this h;
      n ← deref newCopy h1;
      '(cs, h2) ← deepCopy_children (deepCopy fuel') (children n) h1;
      Returns (newCopy, <[newCopy := set_children cs n]> h2)
  end.

(** *** [dump] *)

Section Dump.

(** [toWString] is defined in tree.h for three classes only; for the
    others its body is not among the sources, and is taken as a function
    of the members of the object that are not pointers. *)
Variable toWString_elsewhere : Variant → SourcePos → string.

(** How the string of a node is written to the stream at a level of
    indentation (the bodies of [dump] are not among the sources). *)
Variable write_line : nat → string → string.

(** [StaticVectorNode::dump], an override whose body is not among the
    sources: what it does to the stream and to the indentation. *)
Variable StaticVectorNode_dump :
  list Z → SourcePos → string * nat → string * nat.

(** [virtual std::wstring toWString() const]:
    [BlockNode]: [return L"Block";]
    [ProgramNode]: [return L"ProgramBlock";]
    [ReturnNode]: [return L"Return";] *)
Definition toWString (v : Variant) (pos : SourcePos) : string :=
  match v with
  | BlockNode => "Block"
  | ProgramNode => "ProgramBlock"
  | ReturnNode => "Return"
  | _ => toWString_elsewhere v pos
  end.

Fixpoint dump_children (dump : loc → heap → string * nat → outcome (string * nat))
    (cs : list loc) (h : heap) (out : string * nat) : outcome (string * nat) :=
  match cs with
  | [] => Returns out
  | c :: cs' => out' ← dump c h out; dump_children dump cs' h out'
  end.

(** Modelled from the spec: the body of [Node::dump(std::wostream& dest,
    unsigned& indent) const] is not in tree.h.  "Dump: pretty-print
    subtree to a stream with increasing indent": the node writes its own
    string at the current indentation, and its children are dumped one
    level deeper.  The state is the text written so far and the
    indentation. *)
Fixpoint dump (fuel : nat) (this : loc) (h : heap) (out : string * nat)
  : outcome (string * nat) :=
  match fuel with
  | O => OutOfFuel
  | S fuel' =>
      n ← deref this h;
      match variant n with
      | StaticVectorNode values =>
          Returns (StaticVectorNode_dump values (sourcePos n) out)
      | v =>
          let dest := (out.1 ++ write_line out.2 (toWString v (sourcePos n)))%string in
          '(dest', indent') ← dump_children (dump fuel') (children n) h (dest, S out.2);
          Returns (dest', Nat.pred indent')
      end
  end.

(** The text of a tree: [dump] read on the tree a pointer stands for. *)
Fixpoint dump_tree (t : Ast) (out : string * nat) : string * nat :=
  match t with
  | ast v pos sub =>
      match v with
      | StaticVectorNode values => StaticVectorNode_dump values pos out
      | _ =>
          let dest := (out.1 ++ write_line out.2 (toWString v pos))%string in
          let out' := foldl (λ o c, dump_tree c o) (dest, S out.2) sub in
          (out'.1, Nat.pred out'.2)
      end
  end.

End Dump.

(** *** [typeCheck] *)

(** Modelled from the spec: the classes of operators the type checker
    tells apart. *)
Inductive OperatorClass : Type := Arithmetic | Bitwise | Comparison | Logical.

Definition binaryOperatorClass (op : AsebaBinaryOperator) : OperatorClass :=
  match op with
  | ASEBA_OP_SHIFT_LEFT | ASEBA_OP_SHIFT_RIGHT
  | ASEBA_OP_ADD | ASEBA_OP_SUB
  | ASEBA_OP_MULT | ASEBA_OP_DIV | ASEBA_OP_MOD => Arithmetic
  | ASEBA_OP_BIT_OR | ASEBA_OP_BIT_XOR | ASEBA_OP_BIT_AND => Bitwise
  | ASEBA_OP_EQUAL | ASEBA_OP_NOT_EQUAL
  | ASEBA_OP_BIGGER_THAN | ASEBA_OP_BIGGER_EQUAL_THAN
  | ASEBA_OP_SMALLER_THAN | ASEBA_OP_SMALLER_EQUAL_THAN => Comparison
  | ASEBA_OP_OR | ASEBA_OP_AND => Logical
  end.

Definition unaryOperatorClass (op : AsebaUnaryOperator) : OperatorClass :=
  match op with
  | ASEBA_UNARY_OP_SUB | ASEBA_UNARY_OP_ABS => Arithmetic
  | ASEBA_UNARY_OP_BIT_NOT => Bitwise
  | ASEBA_UNARY_OP_NOT => Logical
  end.

(** [void expectType(const Node::ReturnType& expected,
                     const Node::ReturnType& type) const]:
    "Check for a specific type, throw an exception otherwise". *)
Definition expectType (pos : SourcePos) (expected type : ReturnType) : outcome unit :=
  if decide (type = expected) then Returns ()
  else Throws (TypeError_at pos expected type).

Section TypeCheck.

(** [StaticVectorNode::typeCheck], an override whose body is not among
    the sources and of which the specification says nothing. *)
Variable StaticVectorNode_typeCheck : list Z → SourcePos → outcome ReturnType.

(** [virtual ReturnType typeCheck() const]: "Typecheck this node, throw
    an exception if there is any type violation".

    Defined in tree.h, each as [{ return TYPE_...; }]:
    [ImmediateNode], [LoadNode], [ArrayReadNode]: [TYPE_INT];
    [EventDeclNode], [EmitNode], [SubDeclNode], [StoreNode],
    [ArrayWriteNode], [CallNode], [ReturnNode], [VectorNode] (which
    [MemoryVectorNode] inherits): [TYPE_UNIT].

    Modelled from the spec: the bodies of [Node::typeCheck] (run by
    [BlockNode], [ProgramNode], [FoldedIfWhenNode], [FoldedWhileNode] and
    [CallSubNode], which declare none) and of the overrides in
    [AssignmentNode], [IfWhenNode], [WhileNode], [BinaryArithmeticNode]
    and [UnaryArithmeticNode] are not in tree.h.  The checker works
    bottom-up, children left to right; statement-level nodes and
    assignments give [TYPE_UNIT]; the condition of [IfWhenNode] and
    [WhileNode] must be [TYPE_BOOL]; arithmetic and bitwise operators
    take [TYPE_INT] and give [TYPE_INT], comparisons take [TYPE_INT] and
    give [TYPE_BOOL], logical operators take [TYPE_BOOL] and give
    [TYPE_BOOL]; an assignment stores an integer expression through its
    store subtree.  A violation throws. *)
Fixpoint typeCheck (n : Ast) : outcome ReturnType :=
  match n with
  | ast v pos sub =>
      match v with
      | ImmediateNode _ => Returns TYPE_INT
      | LoadNode _ => Returns TYPE_INT
      | ArrayReadNode _ _ _ => Returns TYPE_INT
      | EventDeclNode _ => Returns TYPE_UNIT
      | EmitNode _ _ _ => Returns TYPE_UNIT
      | SubDeclNode _ => Returns TYPE_UNIT
      | StoreNode _ => Returns TYPE_UNIT
      | ArrayWriteNode _ _ _ => Returns TYPE_UNIT
      | CallNode _ _ => Returns TYPE_UNIT
      | ReturnNode => Returns TYPE_UNIT
      | MemoryVectorNode _ _ _ _ => Returns TYPE_UNIT
      | StaticVectorNode values => StaticVectorNode_typeCheck values pos
      | BlockNode | ProgramNode | FoldedIfWhenNode _ _ _ | FoldedWhileNode _
      | CallSubNode _ =>
          (fix each (cs : list Ast) : outcome ReturnType :=
             match cs with
             | [] => Returns TYPE_UNIT
             | c :: cs' => _ ← typeCheck c; each cs'
             end) sub
      | AssignmentNode =>
          match sub with
          | store :: expr :: _ =>
              ts ← typeCheck store;
              _ ← expectType pos TYPE_UNIT ts;
              te ← typeCheck expr;
              _ ← expectType pos TYPE_INT te;
              Returns TYPE_UNIT
          | _ => Undefined
          end
      | IfWhenNode _ _ =>
          match sub with
          | cond :: trueBlock :: rest =>
              tc ← typeCheck cond;
              _ ← expectType pos TYPE_BOOL tc;
              _ ← typeCheck trueBlock;
              match rest with
              | falseBlock :: _ => _ ← typeCheck falseBlock; Returns TYPE_UNIT
              | [] => Returns TYPE_UNIT
              end
          | _ => Undefined
          end
      | WhileNode =>
          match sub with
          | cond :: block :: _ =>
              tc ← typeCheck cond;
              _ ← expectType pos TYPE_BOOL tc;
              _ ← typeCheck block;
              Returns TYPE_UNIT
          | _ => Undefined
          end
      | BinaryArithmeticNode op =>
          match sub with
          | lhs :: rhs :: _ =>
              tl ← typeCheck lhs;
              tr ← typeCheck rhs;
              match binaryOperatorClass op with
              | Arithmetic | Bitwise =>
                  _ ← expectType pos TYPE_INT tl;
                  _ ← expectType pos TYPE_INT tr;
                  Returns TYPE_INT
              | Comparison =>
                  _ ← expectType pos TYPE_INT tl;
                  _ ← expectType pos TYPE_INT tr;
                  Returns TYPE_BOOL
              | Logical =>
                  _ ← expectType pos TYPE_BOOL tl;
                  _ ← expectType pos TYPE_BOOL tr;
                  Returns TYPE_BOOL
              end
          | _ => Undefined
          end
      | UnaryArithmeticNode op =>
          match sub with
          | child :: _ =>
              tc ← typeCheck child;
              match unaryOperatorClass op with
              | Logical => _ ← expectType pos TYPE_BOOL tc; Returns TYPE_BOOL
              | _ => _ ← expectType pos TYPE_INT tc; Returns TYPE_INT
              end
          | _ => Undefined
          end
      end
  end.

End TypeCheck.

(** The nodes that stand for statements, as opposed to expressions,
    stores and the abstract vectors. *)
Definition statement_level (v : Variant) : bool :=
  match v with
  | BlockNode | ProgramNode | AssignmentNode
  | IfWhenNode _ _ | FoldedIfWhenNode _ _ _
  | WhileNode | FoldedWhileNode _
  | EventDeclNode _ | EmitNode _ _ _
  | SubDeclNode _ | CallSubNode _
  | CallNode _ _ | ReturnNode => true
  | _ => false
  end.

End Tree.

(** ** What the statements below are written with *)

Module TreeSpec.
Import Tree.

(** [copied h h' p t]: in [h'] the pointer [p] is the root of the tree
    [t], and the objects of that tree are all objects that [h] did not
    hold: the tree is there in every heap that has these objects. *)
Definition copied (h h' : heap) (p : loc) (t : Ast) : Prop :=
  ∀ h'' : heap,
    (∀ q n, h !! q = None → h' !! q = Some n → h'' !! q = Some n) →
    repr h'' p t.

(** What [deepCopy] does on the tree [t], given [fuel]. *)
Definition deepCopy_ok (fuel : nat) (t : Ast) : Prop :=
  ∀ (h : heap) (p : loc),
    repr h p t →
    ∃ (p' : loc) (h' : heap),
      deepCopy fuel p h = Returns (p', h')
      ∧ h ⊆ h' ∧ h !! p' = None ∧ copied h h' p' t.

(** What [dump] does on the tree [t], given [fuel]. *)
Definition dump_ok (toWString_elsewhere : Variant → SourcePos → string)
    (write_line : nat → string → string)
    (StaticVectorNode_dump : list Z → SourcePos → string * nat → string * nat)
    (fuel : nat) (t : Ast) : Prop :=
  ∀ (h : heap) (p : loc) (out : string * nat),
    repr h p t →
    dump toWString_elsewhere write_line StaticVectorNode_dump fuel p h out
    = Returns (dump_tree toWString_elsewhere write_line StaticVectorNode_dump t out).

(** The checks a statement-level node makes on its children, for the
    classes whose [typeCheck] is not written in tree.h. *)
Definition checks_pass
    (StaticVectorNode_typeCheck : list Z → SourcePos → outcome ReturnType)
    (v : Variant) (sub : list Ast) : Prop :=
  let typeCheck_here := typeCheck StaticVectorNode_typeCheck in
  match v with
  | AssignmentNode =>
      ∃ store expr rest, sub = store :: expr :: rest
        ∧ typeCheck_here store = Returns TYPE_UNIT
        ∧ typeCheck_here expr = Returns TYPE_INT
  | IfWhenNode _ _ =>
      ∃ cond trueBlock rest, sub = cond :: trueBlock :: rest
        ∧ typeCheck_here cond = Returns TYPE_BOOL
        ∧ (∃ t, typeCheck_here trueBlock = Returns t)
        ∧ (∀ falseBlock, head rest = Some falseBlock →
             ∃ t, typeCheck_here falseBlock = Returns t)
  | WhileNode =>
      ∃ cond block rest, sub = cond :: block :: rest
        ∧ typeCheck_here cond = Returns TYPE_BOOL
        ∧ (∃ t, typeCheck_here block = Returns t)
  | _ => Forall (λ c, ∃ t, typeCheck_here c = Returns t) sub
  end.

End TreeSpec.

(** ** Trees and heaps the statements are tried on *)

Module Examples.
Import Tree.

Definition pos_7_3 : SourcePos := mkSourcePos 7 3 120.

Definition heap_with_store : heap :=
  <[5%positive := mkNode (StoreNode 42) [] pos_7_3]> ∅.

Definition heap_with_write : heap :=
  <[2%positive := mkNode (ImmediateNode 3) [] pos_7_3]>
    (<[1%positive := mkNode (ArrayWriteNode 16 8 "a") [2%positive] pos_7_3]> ∅).

Definition heap_with_sum : heap :=
  <[3%positive := mkNode (ImmediateNode 1) [] pos_7_3]>
    (<[2%positive := mkNode (LoadNode 9) [] pos_7_3]>
       (<[1%positive := mkNode (BinaryArithmeticNode ASEBA_OP_ADD)
                               [2%positive; 3%positive] pos_7_3]> ∅)).

Definition tree_of_sum : Ast :=
  ast (BinaryArithmeticNode ASEBA_OP_ADD) pos_7_3
    [ast (LoadNode 9) pos_7_3 []; ast (ImmediateNode 1) pos_7_3 []].

(** A layout of the lines of [dump]: four spaces for each level, then
    the string of the node and a line feed. *)
Definition line_feed : string := String (Ascii.ascii_of_nat 10) EmptyString.

Definition four_spaces (indent : nat) (line : string) : string :=
  (String.concat "" (replicate indent "    ") ++ line ++ line_feed)%string.

(** Two statement-level nodes that do not type-check: a conditional on
    an integer, [if 1 then ... end], and an assignment whose expression
    adds a comparison, [x = (y < 2) + 1]. *)
Definition if_on_integer : Ast :=
  ast (IfWhenNode false 2) pos_7_3
    [ast (ImmediateNode 1) pos_7_3 []; ast BlockNode pos_7_3 []].

Definition assignment_of_comparison_sum : Ast :=
  ast AssignmentNode pos_7_3
    [ast (StoreNode 4) pos_7_3 [];
     ast (BinaryArithmeticNode ASEBA_OP_ADD) pos_7_3
       [ast (BinaryArithmeticNode ASEBA_OP_SMALLER_THAN) pos_7_3
          [ast (LoadNode 5) pos_7_3 []; ast (ImmediateNode 2) pos_7_3 []];
        ast (ImmediateNode 1) pos_7_3 []]].

End Examples.

(** ** common/utils/utils.h: the comparisons of [UnifiedTime] and the
    checked casts *)

Module UtilsOperators.
Import Utils.

(** [bool operator <(const UnifiedTime &that) const
      { return value < that.value; }] and the five next to it. *)
Definition op_lt (this that : UnifiedTime) : bool := value this <? value that.
Definition op_le (this that : UnifiedTime) : bool := value this <=? value that.
Definition op_gt (this that : UnifiedTime) : bool := value this >? value that.
Definition op_ge (this that : UnifiedTime) : bool := value this >=? value that.
Definition op_eq (this that : UnifiedTime) : bool := value this =? value that.
Definition op_ne (this that : UnifiedTime) : bool := negb (value this =? value that).

(** What a call does: it returns, or [abort()] ends the program. *)
Inductive aborting (A : Type) : Type :=
| Completed (a : A)
| Aborted.
Arguments Completed {A} a.
Arguments Aborted {A}.

Section Downcast.
(** [Base] and [Derived] are pointer types: a pointer is [None], the null
    pointer, or [Some] of what a non-null pointer of that type is.
    [dynamic_cast] is the cast of a non-null pointer, null when the
    object is not of the derived class. *)
Context {Base Derived : Type}.
Variable dynamic_cast : Base → option Derived.

(** [dynamic_cast<Derived>(base)]: a null pointer casts to null. *)
Definition dynamic_cast_pointer (base : option Base) : option Derived :=
  match base with
  | Some b => dynamic_cast b
  | None => None
  end.

(** [Derived derived = dynamic_cast<Derived>(base);
     if (!derived) abort();
     return derived;] *)
Definition polymorphic_downcast (base : option Base) : aborting (option Derived) :=
  let derived := dynamic_cast_pointer base in
  match derived with
  | None => Aborted
  | Some _ => Completed derived
  end.

(** [if (!base) return nullptr;
     Derived derived = dynamic_cast<Derived>(base);
     if (!derived) abort();
     return derived;] *)
Definition polymorphic_downcast_or_null (base : option Base)
  : aborting (option Derived) :=
  match base with
  | None => Completed None
  | Some _ =>
      let derived := dynamic_cast_pointer base in
      match derived with
      | None => Aborted
      | Some _ => Completed derived
      end
  end.

End Downcast.

End UtilsOperators.

(** ** compiler/tree.h: names, memory of a node, and the members set
    after construction *)

Module TreeAccessors.
Import Tree.

(** The class of an object, without its members. *)
Inductive NodeClass : Type :=
| class_BlockNode | class_ProgramNode | class_AssignmentNode
| class_IfWhenNode | class_FoldedIfWhenNode
| class_WhileNode | class_FoldedWhileNode
| class_EventDeclNode | class_EmitNode
| class_SubDeclNode | class_CallSubNode
| class_BinaryArithmeticNode | class_UnaryArithmeticNode
| class_ImmediateNode | class_StoreNode | class_LoadNode
| class_ArrayWriteNode | class_ArrayReadNode
| class_CallNode | class_ReturnNode
| class_StaticVectorNode | class_MemoryVectorNode.

Definition class_of (v : Variant) : NodeClass :=
  match v with
  | BlockNode => class_BlockNode
  | ProgramNode => class_ProgramNode
  | AssignmentNode => class_AssignmentNode
  | IfWhenNode _ _ => class_IfWhenNode
  | FoldedIfWhenNode _ _ _ => class_FoldedIfWhenNode
  | WhileNode => class_WhileNode
  | FoldedWhileNode _ => class_FoldedWhileNode
  | EventDeclNode _ => class_EventDeclNode
  | EmitNode _ _ _ => class_EmitNode
  | SubDeclNode _ => class_SubDeclNode
  | CallSubNode _ => class_CallSubNode
  | BinaryArithmeticNode _ => class_BinaryArithmeticNode
  | UnaryArithmeticNode _ => class_UnaryArithmeticNode
  | ImmediateNode _ => class_ImmediateNode
  | StoreNode _ => class_StoreNode
  | LoadNode _ => class_LoadNode
  | ArrayWriteNode _ _ _ => class_ArrayWriteNode
  | ArrayReadNode _ _ _ => class_ArrayReadNode
  | CallNode _ _ => class_CallNode
  | ReturnNode => class_ReturnNode
  | StaticVectorNode _ => class_StaticVectorNode
  | MemoryVectorNode _ _ _ _ => class_MemoryVectorNode
  end.

(** [virtual std::wstring toNodeName() const { return L"..."; }], written
    in every class: "Return a string representation of the name of this
    node". *)
Definition toNodeName (v : Variant) : string :=
  match v with
  | BlockNode => "block"
  | ProgramNode => "program block"
  | AssignmentNode => "assignment"
  | IfWhenNode _ _ => "if/when"
  | FoldedIfWhenNode _ _ _ => "folded if/when"
  | WhileNode => "while"
  | FoldedWhileNode _ => "folded while"
  | EventDeclNode _ => "event declaration"
  | EmitNode _ _ _ => "emit"
  | SubDeclNode _ => "subroutine declaration"
  | CallSubNode _ => "subroutine call"
  | BinaryArithmeticNode _ => "binary function"
  | UnaryArithmeticNode _ => "unary function"
  | ImmediateNode _ => "constant"
  | StoreNode _ => "variable access (write)"
  | LoadNode _ => "variable access (read)"
  | ArrayWriteNode _ _ _ => "array access (write)"
  | ArrayReadNode _ _ _ => "array access (read)"
  | CallNode _ _ => "native function call"
  | ReturnNode => "return"
  | StaticVectorNode _ => "array constructor"
  | MemoryVectorNode _ _ _ _ => "vector access"
  end.

(** An [unsigned] is a value in [0, 2^32); a [size_t] returned as
    [unsigned] is reduced to it. *)
Definition unsigned_modulus : Z := 2 ^ 32.
Definition to_unsigned (z : Z) : Z := z mod unsigned_modulus.

Section Memory.

(** [Node::getMemoryAddr], [Node::getMemorySize] and their overrides in
    [MemoryVectorNode] are declared in tree.h without a body: what they
    return for the other classes, from the object and the heap. *)
Variable getMemoryAddr_elsewhere : Node → heap → Z.
Variable getMemorySize_elsewhere : Node → heap → Z.

(** [virtual unsigned getMemoryAddr() const]:
    [StoreNode], [LoadNode]: [{ return varAddr; }];
    [ArrayWriteNode], [ArrayReadNode]: [{ return arrayAddr; }]. *)
Definition getMemoryAddr (this : Node) (h : heap) : Z :=
  match variant this with
  | StoreNode varAddr => varAddr
  | LoadNode varAddr => varAddr
  | ArrayWriteNode arrayAddr _ _ => arrayAddr
  | ArrayReadNode arrayAddr _ _ => arrayAddr
  | _ => getMemoryAddr_elsewhere this h
  end.

(** [virtual unsigned getMemorySize() const]:
    [ImmediateNode], [StoreNode], [LoadNode], [ArrayWriteNode],
    [ArrayReadNode]: [{ return 1; }];
    [StaticVectorNode]: [{ return values.size(); }]. *)
Definition getMemorySize (this : Node) (h : heap) : Z :=
  match variant this with
  | ImmediateNode _ => 1
  | StoreNode _ => 1
  | LoadNode _ => 1
  | ArrayWriteNode _ _ _ => 1
  | ArrayReadNode _ _ _ => 1
  | StaticVectorNode values => to_unsigned (Z.of_nat (length values))
  | _ => getMemorySize_elsewhere this h
  end.

End Memory.

(** [StaticVectorNode(const SourcePos& sourcePos) :
      VectorNode(sourcePos) {}] and
    [StaticVectorNode(const SourcePos& sourcePos, int value) :
      VectorNode(sourcePos) { values.push_back(value); }] *)
Definition StaticVectorNode_empty (pos : SourcePos) : Node :=
  {| variant := StaticVectorNode []; children := []; sourcePos := pos |}.

Definition StaticVectorNode_of (pos : SourcePos) (value : Z) : Node :=
  {| variant := StaticVectorNode ([] ++ [value]); children := []; sourcePos := pos |}.

(** [virtual void addValue(int value) { values.push_back(value); }],
    on the object [this] points to. *)
Definition addValue (this : loc) (value : Z) (h : heap) : outcome heap :=
  n ← deref this h;
  match variant n with
  | StaticVectorNode values =>
      Returns (<[this := {| variant := StaticVectorNode (values ++ [value]);
                            children := children n;
                            sourcePos := sourcePos n |}]> h)
  | _ => Undefined
  end.

(** A run of calls [this->addValue(v)], one for each [v] in turn. *)
Fixpoint addValues (this : loc) (vs : list Z) (h : heap) : outcome heap :=
  match vs with
  | [] => Returns h
  | v :: vs' => h' ← addValue this v h; addValues this vs' h'
  end.

(** [virtual void setWrite(bool write) { this->write = write; }] of
    [MemoryVectorNode]. *)
Definition setWrite (this : loc) (write : bool) (h : heap) : outcome heap :=
  n ← deref this h;
  match variant n with
  | MemoryVectorNode arrayAddr arraySize arrayName _ =>
      Returns (<[this := {| variant := MemoryVectorNode arrayAddr arraySize arrayName write;
                            children := children n;
                            sourcePos := sourcePos n |}]> h)
  | _ => Undefined
  end.

End TreeAccessors.

(** ** More trees and heaps the statements are tried on *)

Module AccessorExamples.
Import Tree TreeAccessors Examples.

Definition heap_with_vector : heap :=
  <[7%positive := StaticVectorNode_of pos_7_3 10]> heap_with_sum.

Definition memory_vector : Node :=
  mkNode (MemoryVectorNode 16 8 "a" false) [2%positive] pos_7_3.

Definition heap_with_memory_vector : heap :=
  <[4%positive := memory_vector]> heap_with_sum.

End AccessorExamples.

(** ** common/utils/utils.h: [clamp] at [double] *)

Module UtilsDouble.
Import Utils.

(** [clamp<double>]: [<] and [>] are the comparisons of binary64, both
    false when an operand is a NaN. *)
Definition clampDouble : PrimFloat.float → PrimFloat.float → PrimFloat.float → PrimFloat.float :=
  clamp PrimFloat.ltb (λ a b, PrimFloat.ltb b a).

End UtilsDouble.

(** ** Properties of the helpers *)

Module UtilsFacts.
Import Utils UtilsDouble.

Section ClampOrder.
(** [clamp] over any type whose [<] is irreflexive, with [a > b] being
    [b < a]; [a <= b] is read as "not [b < a]". *)
Context {T : Type} (lt : T → T → bool).
Hypothesis lt_irrefl : ∀ a, lt a a = false.

Let gt (a b : T) : bool := lt b a.
Let le (a b : T) : Prop := lt b a = false.

Lemma clamp_between v minV maxV :
  le minV maxV →
  le minV (clamp lt gt v minV maxV) ∧ le (clamp lt gt v minV maxV) maxV.
Proof using lt_irrefl.
  unfold clamp, le, gt. intros Hmm.
  destruct (lt v minV) eqn:E1; [by rewrite lt_irrefl|].
  destruct (lt maxV v) eqn:E2; [by rewrite lt_irrefl|]. done.
Qed.

Lemma clamp_inside v minV maxV :
  le minV v → le v maxV → clamp lt gt v minV maxV = v.
Proof using Type.
  unfold clamp, le, gt. by intros -> ->.
Qed.

Lemma clamp_twice v minV maxV :
  le minV maxV →
  clamp lt gt (clamp lt gt v minV maxV) minV maxV = clamp lt gt v minV maxV.
Proof using lt_irrefl.
  intros Hmm. destruct (clamp_between v minV maxV Hmm) as [H1 H2].
  by apply clamp_inside.
Qed.

End ClampOrder.

Lemma clampZ_le (a b : Z) : (b <? a) = false ↔ a ≤ b.
Proof. destruct (Z.ltb_spec b a); split; (done || lia). Qed.

Lemma clampZ_generic v minV maxV :
  clampZ v minV maxV = clamp Z.ltb (λ a b, b <? a) v minV maxV.
Proof. unfold clampZ, clamp. by rewrite Z.gtb_ltb. Qed.

(** At the integers: for bounds [minV <= maxV], [clamp v minV maxV] lies
    in [[minV, maxV]], is [v] whenever [v] already lies there, and
    clamping a second time changes nothing. *)
Theorem clamp_range_fixed_idempotent (v minV maxV : Z) :
  minV ≤ maxV →
  (minV ≤ clampZ v minV maxV ≤ maxV)
  ∧ (minV ≤ v ≤ maxV → clampZ v minV maxV = v)
  ∧ clampZ (clampZ v minV maxV) minV maxV = clampZ v minV maxV.
Proof.
  intros Hmm%clampZ_le.
  destruct (clamp_between Z.ltb Z.ltb_irrefl v minV maxV Hmm) as [Hlo Hhi].
  rewrite !clampZ_generic. split; [|split].
  - split; by apply clampZ_le.
  - intros [H1%clampZ_le H2%clampZ_le]. by apply clamp_inside.
  - by apply clamp_twice; [apply Z.ltb_irrefl|].
Qed.

Lemma clamp_range_fixed_idempotent_witness :
  (-5 ≤ clampZ 12 (-5) 7 ≤ 7)
  ∧ (-5 ≤ 12 ≤ 7 → clampZ 12 (-5) 7 = 12)
  ∧ clampZ (clampZ 12 (-5) 7) (-5) 7 = clampZ 12 (-5) 7.
Proof.
  apply (clamp_range_fixed_idempotent 12 (-5) 7). lia.
Defined.

(** C9, as amended: for every type whose [<], [>] and [<=] are the
    comparisons of one total order ([a < a] never holds, [a > b] is
    [b < a], [a <= b] is "not [b < a]"), as they are for the integer
    types, and for bounds [minV <= maxV]: [clamp v minV maxV] lies in
    [[minV, maxV]], is [v] whenever [minV <= v <= maxV], and clamping a
    second time changes nothing. *)
Theorem clamp_in_total_order {T : Type} (lt gt le : T → T → bool)
    (v minV maxV : T) :
  (∀ a, lt a a = false) →
  (∀ a b, gt a b = lt b a) →
  (∀ a b, le a b = negb (lt b a)) →
  le minV maxV = true →
  (le minV (clamp lt gt v minV maxV) = true
   ∧ le (clamp lt gt v minV maxV) maxV = true)
  ∧ (le minV v = true → le v maxV = true → clamp lt gt v minV maxV = v)
  ∧ clamp lt gt (clamp lt gt v minV maxV) minV maxV = clamp lt gt v minV maxV.
Proof.
  intros Hirr Hgt Hle Hmm.
  assert (Hin : le minV (clamp lt gt v minV maxV) = true
                ∧ le (clamp lt gt v minV maxV) maxV = true).
  { rewrite Hle in Hmm. unfold clamp. rewrite Hgt.
    destruct (lt v minV) eqn:E1; [by rewrite !Hle, Hirr|].
    destruct (lt maxV v) eqn:E2; [by rewrite !Hle, Hirr|].
    by rewrite !Hle, E1, E2. }
  assert (Hfix : ∀ x, le minV x = true → le x maxV = true →
                      clamp lt gt x minV maxV = x).
  { intros x. unfold clamp. rewrite Hgt, !Hle.
    by destruct (lt x minV), (lt maxV x). }
  split; [exact Hin|]. split; [apply Hfix|].
  destruct Hin. by apply Hfix.
Qed.

Lemma clamp_in_total_order_witness :
  (Z.leb (-5) (clamp Z.ltb Z.gtb 12 (-5) 7) = true
   ∧ Z.leb (clamp Z.ltb Z.gtb 12 (-5) 7) 7 = true)
  ∧ (Z.leb (-5) 12 = true → Z.leb 12 7 = true →
     clamp Z.ltb Z.gtb 12 (-5) 7 = 12)
  ∧ clamp Z.ltb Z.gtb (clamp Z.ltb Z.gtb 12 (-5) 7) (-5) 7
    = clamp Z.ltb Z.gtb 12 (-5) 7.
Proof.
  apply (clamp_in_total_order Z.ltb Z.gtb Z.leb 12 (-5) 7).
  - apply Z.ltb_irrefl.
  - apply Z.gtb_ltb.
  - intros a b. apply Z.leb_antisym.
  - reflexivity.
Defined.

(** C9 as stated fails at [double]: with the bounds [0 <= 1], the clamp
    of a NaN is the NaN itself, which is neither at or above [0] nor at
    or below [1]. *)
Lemma clamp_of_NaN_outside_bounds :
  PrimFloat.leb PrimFloat.zero PrimFloat.one = true
  ∧ PrimFloat.is_nan (clampDouble PrimFloat.nan PrimFloat.zero PrimFloat.one) = true
  ∧ PrimFloat.leb PrimFloat.zero
      (clampDouble PrimFloat.nan PrimFloat.zero PrimFloat.one) = false
  ∧ PrimFloat.leb (clampDouble PrimFloat.nan PrimFloat.zero PrimFloat.one)
      PrimFloat.one = false.
Proof. repeat split; reflexivity. Qed.

Lemma Value_div_exact (a b : Z) :
  is_Value a → is_Value b → b ≠ 0 →
  Value_div a b = a / b ∧ is_Value (a / b).
Proof.
  unfold is_Value, Value_div, wrapValue. intros Ha Hb Hne.
  assert (0 < b) by lia.
  assert (0 ≤ a / b) by (apply Z.div_pos; lia).
  assert (a / b ≤ a) by (apply Z.div_le_upper_bound; nia).
  rewrite Z.quot_div_nonneg by lia.
  split; [apply Z.mod_small; lia | lia].
Qed.

(** C10: both division operators assert [factor]; with a nonzero factor
    the assertion does not fire and the value of the result is the
    unsigned 64-bit quotient [t.value / factor], the same for [/] and
    for [/=]. *)
Theorem UnifiedTime_division_guarded (t : UnifiedTime) (factor : Z) :
  is_Value (value t) → is_Value factor → factor ≠ 0 →
  op_div t factor = Returned (mkUnifiedTime (value t / factor))
  ∧ op_div_assign t factor = Returned (mkUnifiedTime (value t / factor))
  ∧ is_Value (value t / factor)
  ∧ op_div t 0 = AssertionFailed
  ∧ op_div_assign t 0 = AssertionFailed.
Proof.
  intros Ht Hf Hne.
  destruct (Value_div_exact _ _ Ht Hf Hne) as [Hq Hr].
  unfold op_div, op_div_assign, UnifiedTime_from_ms.
  destruct (Z.eqb_spec factor 0) as [->|_]; [done|].
  rewrite Hq. by rewrite Z.eqb_refl.
Qed.

Lemma UnifiedTime_division_guarded_witness :
  op_div (mkUnifiedTime 1000) 3 = Returned (mkUnifiedTime (1000 / 3))
  ∧ op_div_assign (mkUnifiedTime 1000) 3 = Returned (mkUnifiedTime (1000 / 3))
  ∧ is_Value (1000 / 3)
  ∧ op_div (mkUnifiedTime 1000) 0 = AssertionFailed
  ∧ op_div_assign (mkUnifiedTime 1000) 0 = AssertionFailed.
Proof.
  apply (UnifiedTime_division_guarded (mkUnifiedTime 1000) 3);
    unfold is_Value, Value_modulus; simpl; lia.
Defined.

End UtilsFacts.

(** ** Properties of the tree *)

Module TreeFacts.
Import Tree TreeSpec Examples.

(** *** Allocation *)

Lemma alloc_is_insert (n : Node) (h : heap) :
  alloc n h = (fresh (dom h), <[fresh (dom h) := n]> h).
Proof. done. Qed.

Lemma fresh_loc_unused (h : heap) : h !! fresh (dom h) = None.
Proof. apply not_elem_of_dom, is_fresh. Qed.

(** *** The implicit copy constructors copy every member *)

Lemma copy_construct_same (n : Node) : copy_construct n = n.
Proof. destruct n as [[] cs pos]; reflexivity. Qed.

Lemma copy_ImmediateNode_same (n : Node) : copy_ImmediateNode n = n.
Proof. by destruct n. Qed.

(** *** [LoadNode(const StoreNode* store)] *)

(** C7: the [LoadNode] built from a [StoreNode] has the address and the
    source position of the store, has no children, and holds no pointer
    to the store node (it holds no pointer at all). *)
Theorem LoadNode_from_store_copies_address
    (h : heap) (store : loc) (s : Node) (varAddr : Z) :
  h !! store = Some s →
  variant s = StoreNode varAddr →
  ∃ load : Node,
    LoadNode_from_store store h = Returns load
    ∧ variant load = LoadNode varAddr
    ∧ sourcePos load = sourcePos s
    ∧ children load = []
    ∧ (store ∉ references load)
    ∧ references load = [].
Proof.
  intros Hs Hv. unfold LoadNode_from_store, deref. rewrite Hs. simpl.
  rewrite Hv. eexists. split; [reflexivity|]. simpl.
  split_and!; try done. apply not_elem_of_nil.
Qed.

Lemma LoadNode_from_store_copies_address_witness :
  ∃ load : Node,
    LoadNode_from_store 5%positive heap_with_store = Returns load
    ∧ variant load = LoadNode 42
    ∧ sourcePos load = sourcePos (mkNode (StoreNode 42) [] pos_7_3)
    ∧ children load = []
    ∧ (5%positive ∉ references load)
    ∧ references load = [].
Proof.
  apply (LoadNode_from_store_copies_address heap_with_store 5%positive
           (mkNode (StoreNode 42) [] pos_7_3) 42); reflexivity.
Defined.

(** *** [ArrayReadNode(const ArrayWriteNode* write)] *)

Lemma dynamic_cast_ImmediateNode_Some (c : loc) (h : heap) (index : Node) :
  dynamic_cast_ImmediateNode c h = Some index ↔
  h !! c = Some index ∧ ∃ value, variant index = ImmediateNode value.
Proof.
  unfold dynamic_cast_ImmediateNode. destruct (h !! c) as [n|].
  - destruct (variant n) eqn:E; split;
      try (intros [= <-]; split; [done | by eexists]);
      try (intros [[= <-] [value' Hv]]; congruence); try done.
  - split; [done | by intros [? _]].
Qed.

Lemma dynamic_cast_ImmediateNode_None (c : loc) (h : heap) :
  dynamic_cast_ImmediateNode c h = None ↔
  ∀ n, h !! c = Some n → ∀ value, variant n ≠ ImmediateNode value.
Proof.
  unfold dynamic_cast_ImmediateNode. destruct (h !! c) as [n|].
  - destruct (variant n) eqn:E; split;
      try (intros _ n' [= <-] value'; congruence); try done.
    intros Hno. by destruct (Hno n eq_refl value).
  - split; [by intros _ n' [=] | done].
Qed.

(** C3: building an [ArrayReadNode] from an [ArrayWriteNode] throws
    exactly when the write node has no first child or its first child is
    not an [ImmediateNode]; when it does not throw, the new node has the
    address, size and name of the array and the source position of the
    write node, and its only child is a new object equal to the
    immediate index. *)
Theorem ArrayReadNode_from_write_immediate_index
    (h : heap) (write : loc) (w : Node)
    (arrayAddr arraySize : Z) (arrayName : string) :
  h !! write = Some w →
  variant w = ArrayWriteNode arrayAddr arraySize arrayName →
  ((∃ e, ArrayReadNode_from_write write h = Throws e)
    ↔ (children w = []
       ∨ ∃ c rest, children w = c :: rest
           ∧ ∀ n, h !! c = Some n → ∀ value, variant n ≠ ImmediateNode value))
  ∧ (∀ e, ArrayReadNode_from_write write h = Throws e →
       e = Error_at (sourcePos w) non_immediate_index)
  ∧ ((∃ e, ArrayReadNode_from_write write h = Throws e)
     ∨ ∃ c rest index value i,
         children w = c :: rest
         ∧ h !! c = Some index
         ∧ variant index = ImmediateNode value
         ∧ h !! i = None
         ∧ ArrayReadNode_from_write write h =
             Returns (mkNode (ArrayReadNode arrayAddr arraySize arrayName) [i]
                             (sourcePos w),
                      <[i := index]> h)).
Proof.
  intros Hw Hv. unfold ArrayReadNode_from_write, deref. rewrite Hw. simpl.
  rewrite Hv. simpl.
  destruct (children w) as [|c rest] eqn:Hc.
  { split_and!.
    - split; [by left | eauto].
    - by intros e [= <-].
    - left; eauto. }
  destruct (dynamic_cast_ImmediateNode c h) as [index|] eqn:Hd.
  - apply dynamic_cast_ImmediateNode_Some in Hd as [Hi [value Hval]].
    rewrite copy_ImmediateNode_same. unfold push_back. simpl.
    split_and!.
    + split; [by intros [e [=]]|].
      intros [[=]|(c' & rest' & [= <- <-] & Hno)].
      by destruct (Hno _ Hi value).
    + by intros e [=].
    + right. exists c, rest, index, value, (fresh (dom h)).
      split_and!; try done. apply fresh_loc_unused.
  - pose proof (proj1 (dynamic_cast_ImmediateNode_None c h) Hd) as Hno.
    split_and!.
    + split; [|eauto]. intros _. right. by exists c, rest.
    + by intros e [= <-].
    + left; eauto.
Qed.

Lemma ArrayReadNode_from_write_immediate_index_witness :
  ((∃ e, ArrayReadNode_from_write 1%positive heap_with_write = Throws e)
    ↔ (children (mkNode (ArrayWriteNode 16 8 "a") [2%positive] pos_7_3) = []
       ∨ ∃ c rest,
           children (mkNode (ArrayWriteNode 16 8 "a") [2%positive] pos_7_3) = c :: rest
           ∧ ∀ n, heap_with_write !! c = Some n →
               ∀ value, variant n ≠ ImmediateNode value))
  ∧ (∀ e, ArrayReadNode_from_write 1%positive heap_with_write = Throws e →
       e = Error_at (sourcePos (mkNode (ArrayWriteNode 16 8 "a") [2%positive] pos_7_3))
                    non_immediate_index)
  ∧ ((∃ e, ArrayReadNode_from_write 1%positive heap_with_write = Throws e)
     ∨ ∃ c rest index value i,
         children (mkNode (ArrayWriteNode 16 8 "a") [2%positive] pos_7_3) = c :: rest
         ∧ heap_with_write !! c = Some index
         ∧ variant index = ImmediateNode value
         ∧ heap_with_write !! i = None
         ∧ ArrayReadNode_from_write 1%positive heap_with_write =
             Returns (mkNode (ArrayReadNode 16 8 "a") [i]
                        (sourcePos (mkNode (ArrayWriteNode 16 8 "a") [2%positive] pos_7_3)),
                      <[i := index]> heap_with_write)).
Proof.
  apply (ArrayReadNode_from_write_immediate_index heap_with_write 1%positive
           (mkNode (ArrayWriteNode 16 8 "a") [2%positive] pos_7_3) 16 8 "a");
    reflexivity.
Defined.

(** On [heap_with_write] the construction succeeds, and on a write node
    indexed by a variable it throws. *)
Example ArrayReadNode_from_write_constant_index :
  ∃ i, ArrayReadNode_from_write 1%positive heap_with_write =
         Returns (mkNode (ArrayReadNode 16 8 "a") [i] pos_7_3,
                  <[i := mkNode (ImmediateNode 3) [] pos_7_3]> heap_with_write)
       ∧ i ≠ 2%positive.
Proof. eexists. split; [reflexivity|]. by vm_compute. Qed.

Example ArrayReadNode_from_write_variable_index :
  ArrayReadNode_from_write 1%positive
    (<[2%positive := mkNode (LoadNode 4) [] pos_7_3]> heap_with_write)
  = Throws (Error_at pos_7_3 non_immediate_index).
Proof. reflexivity. Qed.

(** *** [shallowCopy] *)

(** C8: [shallowCopy] returns a new node of the same class with the same
    members, its list of children being the same pointers; every object
    that was in the heap, the children among them, is left as it was and
    none is duplicated: the new node is the only new object. *)
Theorem shallowCopy_shares_children (h : heap) (this : loc) (n : Node) :
  h !! this = Some n →
  ∃ (copy : loc) (n' : Node),
    shallowCopy this h = Returns (copy, <[copy := n']> h)
    ∧ h !! copy = None
    ∧ variant n' = variant n
    ∧ sourcePos n' = sourcePos n
    ∧ children n' = children n
    ∧ (∀ q, q ≠ copy → (<[copy := n']> h) !! q = h !! q)
    ∧ dom (<[copy := n']> h) = {[copy]} ∪ dom h.
Proof.
  intros Hn. unfold shallowCopy, deref. rewrite Hn. simpl.
  exists (fresh (dom h)), (copy_construct n). rewrite alloc_is_insert.
  split_and!; try done.
  - apply fresh_loc_unused.
  - by rewrite copy_construct_same.
  - by rewrite copy_construct_same.
  - by rewrite copy_construct_same.
  - intros q Hq. by rewrite lookup_insert_ne.
  - apply dom_insert_L.
Qed.

Lemma shallowCopy_shares_children_witness :
  ∃ (copy : loc) (n' : Node),
    shallowCopy 1%positive heap_with_sum = Returns (copy, <[copy := n']> heap_with_sum)
    ∧ heap_with_sum !! copy = None
    ∧ variant n' = BinaryArithmeticNode ASEBA_OP_ADD
    ∧ sourcePos n' = pos_7_3
    ∧ children n' = [2%positive; 3%positive]
    ∧ (∀ q, q ≠ copy → (<[copy := n']> heap_with_sum) !! q = heap_with_sum !! q)
    ∧ dom (<[copy := n']> heap_with_sum) = {[copy]} ∪ dom heap_with_sum.
Proof.
  apply (shallowCopy_shares_children heap_with_sum 1%positive
           (mkNode (BinaryArithmeticNode ASEBA_OP_ADD) [2%positive; 3%positive] pos_7_3)).
  reflexivity.
Defined.

(** *** Trees in the heap *)

Lemma Ast_ind' (P : Ast → Prop) :
  (∀ v pos sub, Forall P sub → P (ast v pos sub)) → ∀ t, P t.
Proof.
  intros step. fix rec 1. intros [v pos sub]. apply step.
  induction sub as [|t sub IH]; constructor; [apply rec | exact IH].
Qed.

Lemma Forall2_with_Forall {A B : Type} (P Q : A → B → Prop) (R : B → Prop)
    (l : list A) (k : list B) :
  Forall2 P l k → Forall R k → (∀ a b, R b → P a b → Q a b) → Forall2 Q l k.
Proof.
  intros HP HR step. induction HP as [|a b l k Hab _ IH]; [constructor|].
  inversion HR; subst. constructor; auto.
Qed.

Lemma repr_inv (h : heap) (p : loc) (v : Variant) (pos : SourcePos) (sub : list Ast) :
  repr h p (ast v pos sub) →
  ∃ n, h !! p = Some n ∧ variant n = v ∧ sourcePos n = pos
       ∧ Forall2 (repr h) (children n) sub.
Proof. inversion 1; subst. eauto 10. Qed.

Lemma repr_intro (h : heap) (p : loc) (n : Node) (v : Variant) (pos : SourcePos)
    (sub : list Ast) :
  h !! p = Some n → variant n = v → sourcePos n = pos →
  Forall2 (repr h) (children n) sub → repr h p (ast v pos sub).
Proof. intros Hn <- <- Hcs. by constructor. Qed.

(** A tree stays where it is when the heap grows. *)
Lemma repr_mono (t : Ast) :
  ∀ (h h' : heap) (p : loc), h ⊆ h' → repr h p t → repr h' p t.
Proof.
  induction t as [v pos sub IH] using Ast_ind'.
  intros h h' p Hsub (n & Hn & Hv & Hpos & Hcs)%repr_inv.
  eapply repr_intro; eauto using lookup_weaken.
  eapply Forall2_with_Forall; [exact Hcs | exact IH |].
  intros a b Hb Hab. by eapply Hb.
Qed.

Lemma height_sub (v : Variant) (pos : SourcePos) (sub : list Ast) (fuel : nat) :
  (height (ast v pos sub) ≤ S fuel)%nat → Forall (λ t, (height t ≤ fuel)%nat) sub.
Proof.
  simpl. intros H%le_S_n. induction sub as [|t sub IH]; constructor; simpl in H.
  - lia.
  - apply IH. lia.
Qed.

(** *** [deepCopy] builds the same tree out of new objects *)

Lemma copied_repr (h h' : heap) (p : loc) (t : Ast) :
  copied h h' p t → repr h' p t.
Proof. intros H. apply H. auto. Qed.

Lemma copied_grow (h0 h h' h1 : heap) (p : loc) (t : Ast) :
  h0 ⊆ h → h' ⊆ h1 → copied h h' p t → copied h0 h1 p t.
Proof.
  intros H0 H1 Hc h'' Hagree. apply Hc. intros q n Hq Hn.
  apply Hagree; [|by eapply lookup_weaken].
  destruct (h0 !! q) as [m|] eqn:E; [|done].
  by rewrite (lookup_weaken _ _ _ _ E H0) in Hq.
Qed.

Lemma deepCopy_children_ok (fuel : nat) (sub : list Ast) :
  Forall (deepCopy_ok fuel) sub →
  ∀ (cs : list loc) (h : heap),
    Forall2 (repr h) cs sub →
    ∃ (cs' : list loc) (h' : heap),
      deepCopy_children (deepCopy fuel) cs h = Returns (cs', h')
      ∧ h ⊆ h' ∧ Forall2 (copied h h') cs' sub.
Proof.
  induction 1 as [|t sub Ht _ IH]; intros cs h Hcs.
  - inversion Hcs; subst. exists [], h. simpl. split_and!; [done|done|constructor].
  - inversion Hcs as [|c t' cs0 sub' Hc Hrest]; subst.
    destruct (Ht h c Hc) as (c' & h1 & Hrun & Hsub1 & _ & Hcopy).
    assert (Hrest1 : Forall2 (repr h1) cs0 sub).
    { eapply Forall2_impl; [exact Hrest|]. intros a b. by apply repr_mono. }
    destruct (IH cs0 h1 Hrest1) as (cs' & h2 & Hrun2 & Hsub2 & Hcopies).
    exists (c' :: cs'), h2. simpl. rewrite Hrun. simpl. rewrite Hrun2. simpl.
    split_and!; [done | by etrans |].
    constructor.
    + by eapply copied_grow; [| |exact Hcopy].
    + eapply Forall2_impl; [exact Hcopies|].
      intros a b. by apply copied_grow.
Qed.

Lemma deepCopy_copies (t : Ast) :
  ∀ fuel : nat, (height t ≤ fuel)%nat → deepCopy_ok fuel t.
Proof.
  induction t as [v pos sub IH] using Ast_ind'.
  intros [|fuel] Hfuel; [simpl in Hfuel; lia|].
  intros h p (n & Hn & Hv & Hpos & Hcs)%repr_inv.
  set (p1 := fresh (dom h)).
  assert (Hp1 : h !! p1 = None) by apply fresh_loc_unused.
  set (h1 := <[p1 := n]> h).
  assert (Hh1 : h ⊆ h1) by by apply insert_subseteq.
  assert (Hsubs : Forall (deepCopy_ok fuel) sub).
  { pose proof (height_sub _ _ _ _ Hfuel) as Hh.
    rewrite Forall_forall in IH, Hh. apply Forall_forall.
    intros t Ht. apply IH; auto. }
  assert (Hcs1 : Forall2 (repr h1) (children n) sub).
  { eapply Forall2_impl; [exact Hcs|]. intros a b. by apply repr_mono. }
  destruct (deepCopy_children_ok fuel sub Hsubs _ _ Hcs1)
    as (cs' & h2 & Hrun & Hh2 & Hcopies).
  exists p1, (<[p1 := set_children cs' n]> h2).
  split_and!.
  - simpl. unfold shallowCopy, deref. rewrite Hn. simpl.
    rewrite copy_construct_same. fold p1. fold h1.
    assert (Hat : h1 !! p1 = Some n) by apply lookup_insert_eq.
    rewrite Hat. simpl. by rewrite Hrun.
  - apply insert_subseteq_r; [done | by etrans].
  - done.
  - intros h'' Hagree.
    eapply (repr_intro _ _ (set_children cs' n)); [|done|done|].
    + apply Hagree; [done | by rewrite lookup_insert_eq].
    + simpl. eapply Forall2_impl; [exact Hcopies|].
      intros c' t Hc. apply Hc. intros q m Hq Hm.
      assert (q ≠ p1).
      { intros ->. unfold h1 in Hq. by rewrite lookup_insert_eq in Hq. }
      apply Hagree.
      * destruct (h !! q) as [m'|] eqn:E; [|done].
        by rewrite (lookup_weaken _ _ _ _ E Hh1) in Hq.
      * by rewrite lookup_insert_ne.
Qed.

(** *** [dump] prints the tree *)

Section DumpFacts.
Variable toWString_elsewhere : Variant → SourcePos → string.
Variable write_line : nat → string → string.
Variable StaticVectorNode_dump :
  list Z → SourcePos → string * nat → string * nat.

Let dump_here := dump toWString_elsewhere write_line StaticVectorNode_dump.
Let dump_tree_here := dump_tree toWString_elsewhere write_line StaticVectorNode_dump.
Let dump_ok_here := dump_ok toWString_elsewhere write_line StaticVectorNode_dump.

Lemma dump_children_ok (fuel : nat) (sub : list Ast) :
  Forall (dump_ok_here fuel) sub →
  ∀ (cs : list loc) (h : heap) (out : string * nat),
    Forall2 (repr h) cs sub →
    dump_children (dump_here fuel) cs h out
    = Returns (foldl (λ o c, dump_tree_here c o) out sub).
Proof using Type.
  induction 1 as [|t sub Ht _ IH]; intros cs h out Hcs.
  - by inversion Hcs; subst.
  - inversion Hcs as [|c t' cs0 sub' Hc Hrest]; subst. simpl.
    pose proof (Ht h c out Hc) as Hrun. fold dump_here dump_tree_here in Hrun.
    rewrite Hrun. simpl. by apply IH.
Qed.

Lemma dump_prints_tree (t : Ast) :
  ∀ fuel : nat, (height t ≤ fuel)%nat → dump_ok_here fuel t.
Proof using Type.
  induction t as [v pos sub IH] using Ast_ind'.
  intros [|fuel] Hfuel; [simpl in Hfuel; lia|].
  assert (Hsubs : Forall (dump_ok_here fuel) sub).
  { pose proof (height_sub _ _ _ _ Hfuel) as Hh.
    rewrite Forall_forall in IH, Hh. apply Forall_forall.
    intros t Ht. apply IH; auto. }
  intros h p [dest indent] (n & Hn & Hv & Hpos & Hcs)%repr_inv.
  pose proof (dump_children_ok fuel sub Hsubs (children n) h) as Hkids.
  unfold dump_ok_here, dump_ok, dump_here, dump_tree_here in *. simpl.
  unfold deref. rewrite Hn. simpl. rewrite Hv, Hpos.
  destruct v; simpl; try done;
    rewrite (Hkids _ Hcs); simpl;
    by destruct (foldl _ _ sub).
Qed.

End DumpFacts.

(** C6: dumping a deep copy of a node writes the text that dumping the
    node writes.  For a node [n] that is the root of a tree in the heap,
    [deepCopy] returns a new node, and [dump] of the copy and [dump] of
    [n], from the same stream and indentation, return the same stream
    and indentation, before and after the copy was made. *)
Theorem dump_deepCopy_same_text
    (toWString_elsewhere : Variant → SourcePos → string)
    (write_line : nat → string → string)
    (StaticVectorNode_dump : list Z → SourcePos → string * nat → string * nat)
    (h : heap) (n : loc) (t : Ast) :
  repr h n t →
  ∃ (copy : loc) (h' : heap),
    deepCopy (height t) n h = Returns (copy, h')
    ∧ h !! copy = None
    ∧ ∀ out : string * nat,
        ∃ text : string * nat,
          dump toWString_elsewhere write_line StaticVectorNode_dump
               (height t) copy h' out = Returns text
          ∧ dump toWString_elsewhere write_line StaticVectorNode_dump
                 (height t) n h' out = Returns text
          ∧ dump toWString_elsewhere write_line StaticVectorNode_dump
                 (height t) n h out = Returns text.
Proof.
  intros Hn.
  destruct (deepCopy_copies t (height t) (le_n _) h n Hn)
    as (copy & h' & Hrun & Hsub & Hnew & Hcopy).
  exists copy, h'. split_and!; [done | done |].
  intros out.
  exists (dump_tree toWString_elsewhere write_line StaticVectorNode_dump t out).
  split_and!; apply dump_prints_tree; try done.
  - by apply copied_repr in Hcopy.
  - by eapply repr_mono.
Qed.

Lemma heap_with_sum_repr : repr heap_with_sum 1%positive tree_of_sum.
Proof.
  apply (repr_node heap_with_sum 1%positive
           (mkNode (BinaryArithmeticNode ASEBA_OP_ADD) [2%positive; 3%positive] pos_7_3));
    [reflexivity|].
  constructor.
  { by apply (repr_node heap_with_sum 2%positive (mkNode (LoadNode 9) [] pos_7_3)). }
  constructor; [|constructor].
  by apply (repr_node heap_with_sum 3%positive (mkNode (ImmediateNode 1) [] pos_7_3)).
Qed.

Lemma dump_deepCopy_same_text_witness :
  ∃ (copy : loc) (h' : heap),
    deepCopy (height tree_of_sum) 1%positive heap_with_sum = Returns (copy, h')
    ∧ heap_with_sum !! copy = None
    ∧ ∀ out : string * nat,
        ∃ text : string * nat,
          dump (λ _ _, "node") four_spaces (λ _ _ out, out)
               (height tree_of_sum) copy h' out = Returns text
          ∧ dump (λ _ _, "node") four_spaces (λ _ _ out, out)
                 (height tree_of_sum) 1%positive h' out = Returns text
          ∧ dump (λ _ _, "node") four_spaces (λ _ _ out, out)
                 (height tree_of_sum) 1%positive heap_with_sum out = Returns text.
Proof.
  apply (dump_deepCopy_same_text (λ _ _, "node") four_spaces (λ _ _ out, out)
           heap_with_sum 1%positive tree_of_sum).
  exact heap_with_sum_repr.
Defined.

(** The copy shares nothing with the original: changing an object that
    was in the heap before the copy was made leaves the tree of the copy
    as it is. *)
Lemma deepCopy_independent (h : heap) (n : loc) (t : Ast) (copy : loc) (h' : heap) :
  repr h n t →
  deepCopy (height t) n h = Returns (copy, h') →
  ∀ (q : loc) (m : Node), is_Some (h !! q) → repr (<[q := m]> h') copy t.
Proof.
  intros Hn Hrun q m [m0 Hq].
  destruct (deepCopy_copies t (height t) (le_n _) h n Hn)
    as (copy' & h'' & Hrun' & Hsub & Hnew & Hcopy).
  rewrite Hrun in Hrun'. injection Hrun' as <- <-.
  apply Hcopy. intros q' m' Hq' Hm'.
  rewrite lookup_insert_ne; [done|]. intros <-. by rewrite Hq in Hq'.
Qed.

(** *** [typeCheck] *)

Section TypeCheckFacts.
Variable StaticVectorNode_typeCheck : list Z → SourcePos → outcome ReturnType.

Let typeCheck_here := typeCheck StaticVectorNode_typeCheck.
Let checks_pass_here := checks_pass StaticVectorNode_typeCheck.

Lemma bind_Returns {A B : Type} (m : outcome A) (f : A → outcome B) (b : B) :
  m ≫= f = Returns b ↔ ∃ a, m = Returns a ∧ f a = Returns b.
Proof.
  destruct m; simpl; split; try done; try (by intros (? & [=] & _)).
  - eauto.
  - by intros (? & [= <-] & ?).
Qed.

Lemma expectType_Returns (pos : SourcePos) (expected type : ReturnType) (u : unit) :
  expectType pos expected type = Returns u ↔ type = expected.
Proof.
  unfold expectType. destruct u. case_decide; split; done.
Qed.

Lemma Node_typeCheck_each (sub : list Ast) (t : ReturnType) :
  (fix each (cs : list Ast) : outcome ReturnType :=
     match cs with
     | [] => Returns TYPE_UNIT
     | c :: cs' => typeCheck_here c ≫= λ _, each cs'
     end) sub = Returns t
  ↔ t = TYPE_UNIT ∧ Forall (λ c, ∃ t, typeCheck_here c = Returns t) sub.
Proof using Type.
  induction sub as [|c sub IH]; simpl.
  - split; [by intros [= <-] | by intros [-> _]].
  - rewrite bind_Returns. split.
    + intros (tc & Hc & Hrest). apply IH in Hrest as [-> Hall].
      split; [done|]. constructor; eauto.
    + intros [-> Hall]. inversion Hall as [|? ? [tc Hc] Hrest]; subst.
      exists tc. split; [done|]. by apply IH.
Qed.

(** The result of a statement-level node of those classes: [TYPE_UNIT]
    exactly when its checks pass, and no other type ever. *)
Lemma typeCheck_statement (v : Variant) (pos : SourcePos) (sub : list Ast) (t : ReturnType) :
  match v with
  | BlockNode | ProgramNode | AssignmentNode | IfWhenNode _ _
  | FoldedIfWhenNode _ _ _ | WhileNode | FoldedWhileNode _ | CallSubNode _ => True
  | _ => False
  end →
  typeCheck_here (ast v pos sub) = Returns t ↔ t = TYPE_UNIT ∧ checks_pass_here v sub.
Proof using Type.
  unfold typeCheck_here, checks_pass_here, checks_pass.
  destruct v; try done; intros _; simpl;
    try (by apply Node_typeCheck_each).
  - (* AssignmentNode *)
    destruct sub as [|store [|expr rest]];
      [ by split; [|intros [_ (? & ? & ? & [=] & _)]]
      | by split; [|intros [_ (? & ? & ? & [=] & _)]] |].
    split.
    + intros (ts & Hs & (_ & ->%expectType_Returns
               & (te & He & (_ & ->%expectType_Returns & [= <-])%bind_Returns
               )%bind_Returns)%bind_Returns)%bind_Returns.
      split; [done|]. by exists store, expr, rest.
    + intros [-> (s' & e' & r' & [= <- <- <-] & Hs & He)].
      unfold typeCheck_here in *. rewrite Hs. simpl. by rewrite He.
  - (* IfWhenNode *)
    destruct sub as [|cond [|trueBlock rest]];
      [ by split; [|intros [_ (? & ? & ? & [=] & _)]]
      | by split; [|intros [_ (? & ? & ? & [=] & _)]] |].
    split.
    + intros (tc & Hc & (_ & ->%expectType_Returns
               & (tb & Hb & Hrest)%bind_Returns)%bind_Returns)%bind_Returns.
      destruct rest as [|falseBlock rest].
      * injection Hrest as <-. split; [done|].
        exists cond, trueBlock, []. split_and!; eauto. by intros ? [=].
      * apply bind_Returns in Hrest as (tf & Hf & [= <-]). split; [done|].
        exists cond, trueBlock, (falseBlock :: rest). split_and!; eauto.
        intros ? [= <-]. eauto.
    + intros [-> (c' & b' & r' & [= <- <- <-] & Hc & [tb Hb] & Hf)].
      unfold typeCheck_here in *. rewrite Hc. simpl. rewrite Hb. simpl.
      destruct rest as [|falseBlock rest]; [done|].
      destruct (Hf falseBlock eq_refl) as [tf Htf]. by rewrite Htf.
  - (* WhileNode *)
    destruct sub as [|cond [|block rest]];
      [ by split; [|intros [_ (? & ? & ? & [=] & _)]]
      | by split; [|intros [_ (? & ? & ? & [=] & _)]] |].
    split.
    + intros (tc & Hc & (_ & ->%expectType_Returns
               & (tb & Hb & [= <-])%bind_Returns)%bind_Returns)%bind_Returns.
      split; [done|]. exists cond, block, rest. eauto.
    + intros [-> (c' & b' & r' & [= <- <- <-] & Hc & [tb Hb])].
      unfold typeCheck_here in *. rewrite Hc. simpl. by rewrite Hb.
Qed.

(** C2: the type [typeCheck] returns, class by class.  It returns
    [TYPE_INT] for every [ImmediateNode], [LoadNode] and [ArrayReadNode],
    and [TYPE_UNIT] for every [StoreNode], [ArrayWriteNode],
    [EventDeclNode], [EmitNode], [SubDeclNode], [CallNode] and
    [ReturnNode], whatever their children are.  For an [AssignmentNode]
    and the other statement-level nodes the type it returns is
    [TYPE_UNIT], never another one, and it returns it exactly when the
    checks of the node on its children pass ([typeCheck] throws on a
    type violation, and then returns no type). *)
Theorem typeCheck_result_by_class (v : Variant) (pos : SourcePos) (sub : list Ast) :
  match v with
  | ImmediateNode _ | LoadNode _ | ArrayReadNode _ _ _ =>
      typeCheck StaticVectorNode_typeCheck (ast v pos sub) = Returns TYPE_INT
  | StoreNode _ | ArrayWriteNode _ _ _
  | EventDeclNode _ | EmitNode _ _ _ | SubDeclNode _ | CallNode _ _ | ReturnNode =>
      typeCheck StaticVectorNode_typeCheck (ast v pos sub) = Returns TYPE_UNIT
  | BlockNode | ProgramNode | AssignmentNode | IfWhenNode _ _
  | FoldedIfWhenNode _ _ _ | WhileNode | FoldedWhileNode _ | CallSubNode _ =>
      (∀ t, typeCheck StaticVectorNode_typeCheck (ast v pos sub) = Returns t →
            t = TYPE_UNIT)
      ∧ (typeCheck StaticVectorNode_typeCheck (ast v pos sub) = Returns TYPE_UNIT
         ↔ checks_pass StaticVectorNode_typeCheck v sub)
  | _ => True
  end.
Proof using Type.
  destruct v; try done;
    (split;
     [ intros t Ht; by apply (typeCheck_statement _ pos sub t) in Ht as [-> _]
     | split;
       [ intros Ht; by apply (typeCheck_statement _ pos sub TYPE_UNIT) in Ht as [_ Hpass]
       | intros Hpass; by apply (typeCheck_statement _ pos sub TYPE_UNIT) ] ]).
Qed.

End TypeCheckFacts.

(** A type violation throws: a conditional on an integer, and an
    assignment whose expression adds a comparison. *)
Example ill_typed_statements_throw
    (StaticVectorNode_typeCheck : list Z → SourcePos → outcome ReturnType) :
  typeCheck StaticVectorNode_typeCheck if_on_integer
    = Throws (TypeError_at pos_7_3 TYPE_BOOL TYPE_INT)
  ∧ typeCheck StaticVectorNode_typeCheck assignment_of_comparison_sum
    = Throws (TypeError_at pos_7_3 TYPE_INT TYPE_BOOL).
Proof. split; reflexivity. Qed.

(** Well-typed statements do return [TYPE_UNIT]. *)
Example typeCheck_well_typed_assignment
    (StaticVectorNode_typeCheck : list Z → SourcePos → outcome ReturnType) :
  typeCheck StaticVectorNode_typeCheck
    (ast AssignmentNode pos_7_3
       [ast (StoreNode 4) pos_7_3 []; tree_of_sum]) = Returns TYPE_UNIT
  ∧ typeCheck StaticVectorNode_typeCheck
      (ast (IfWhenNode true 3) pos_7_3
         [ast (BinaryArithmeticNode ASEBA_OP_EQUAL) pos_7_3
            [ast (LoadNode 5) pos_7_3 []; ast (ImmediateNode 0) pos_7_3 []];
          ast BlockNode pos_7_3 [ast ReturnNode pos_7_3 []]]) = Returns TYPE_UNIT.
Proof. split; reflexivity. Qed.

End TreeFacts.

(** ** More properties of the helpers *)

Module UtilsOperatorsFacts.
Import Utils UtilsOperators.

Lemma wrapValue_small (z : Z) : is_Value z → wrapValue z = z.
Proof. unfold is_Value, wrapValue. intros H. by apply Z.mod_small. Qed.

Lemma Value_modulus_positive : 0 < Value_modulus.
Proof. by unfold Value_modulus. Qed.



(** X2: [t -= u] gives the difference when [u] is not after [t]; when
    [u] is after [t] it wraps to [2^64 - (u - t)], a time that compares
    greater than [t]. *)
Theorem UnifiedTime_sub_underflow (t u : UnifiedTime) :
  is_Value (value t) → is_Value (value u) →
  (value u ≤ value t → value (op_sub_assign t u) = value t - value u)
  ∧ (value t < value u →
       value (op_sub_assign t u) = Value_modulus - (value u - value t)
       ∧ op_gt (op_sub_assign t u) t = true).
Proof.
  destruct t as [a], u as [b]. simpl. intros Ha Hb.
  unfold op_gt, op_sub_assign, Value_sub, wrapValue, is_Value in *. simpl.
  split; intros Hab.
  - apply Z.mod_small. lia.
  - assert ((a - b) mod Value_modulus = Value_modulus - (b - a)) as ->.
    { symmetry. apply (Z.mod_unique_pos _ _ (-1)); lia. }
    split; [done|]. apply Z.gtb_lt. lia.
Qed.

Lemma UnifiedTime_sub_underflow_witness :
  (9 ≤ 5 → value (op_sub_assign (mkUnifiedTime 5) (mkUnifiedTime 9)) = 5 - 9)
  ∧ (5 < 9 →
       value (op_sub_assign (mkUnifiedTime 5) (mkUnifiedTime 9))
       = Value_modulus - (9 - 5)
       ∧ op_gt (op_sub_assign (mkUnifiedTime 5) (mkUnifiedTime 9)) (mkUnifiedTime 5)
         = true).
Proof.
  apply (UnifiedTime_sub_underflow (mkUnifiedTime 5) (mkUnifiedTime 9));
    unfold is_Value, Value_modulus; simpl; lia.
Defined.

(** X3: [t *= factor; t /= factor] gives [t] back exactly when the
    product did not overflow 64 bits; after an overflow the result is
    smaller than [t]. *)
Theorem UnifiedTime_mul_div_round_trip (t : UnifiedTime) (factor : Z) :
  is_Value (value t) → is_Value factor → factor ≠ 0 →
  (op_div_assign (op_mul_assign t factor) factor = Returned t
     ↔ value t * factor < Value_modulus)
  ∧ (Value_modulus ≤ value t * factor →
       ∃ q, op_div_assign (op_mul_assign t factor) factor = Returned q
            ∧ value q < value t).
Proof.
  destruct t as [a]. simpl. intros Ha Hf Hne.
  unfold op_div_assign, op_mul_assign, Value_mul, Value_div, wrapValue. simpl.
  unfold is_Value in *. pose proof Value_modulus_positive as HM.
  destruct (Z.eqb_spec factor 0) as [|_]; [done|].
  assert (Hf0 : 0 < factor) by lia.
  pose proof (Z.mod_pos_bound (a * factor) Value_modulus HM) as Hp.
  rewrite Z.quot_div_nonneg by lia.
  assert (Hq : 0 ≤ (a * factor) mod Value_modulus / factor < Value_modulus).
  { split; [apply Z.div_pos; lia|].
    apply Z.div_lt_upper_bound; [lia|]. nia. }
  rewrite (Z.mod_small _ _ Hq).
  assert (Hover : Value_modulus ≤ a * factor →
                  (a * factor) mod Value_modulus / factor < a).
  { intros Hge. apply Z.div_lt_upper_bound; [lia|].
    assert ((a * factor) mod Value_modulus ≤ a * factor - Value_modulus); [|lia].
    rewrite Z.mod_eq by lia.
    assert (1 ≤ a * factor / Value_modulus); [|nia].
    apply Z.div_le_lower_bound; lia. }
  split.
  - split.
    + intros [= Heq]. destruct (Z.lt_ge_cases (a * factor) Value_modulus); [done|].
      specialize (Hover ltac:(done)). lia.
    + intros Hlt. do 2 f_equal.
      rewrite (Z.mod_small (a * factor)) by lia. by apply Z.div_mul.
  - intros Hge. eexists. split; [reflexivity|]. simpl. by apply Hover.
Qed.

Lemma UnifiedTime_mul_div_round_trip_witness :
  (op_div_assign (op_mul_assign (mkUnifiedTime 1000) 60) 60 = Returned (mkUnifiedTime 1000)
     ↔ 1000 * 60 < Value_modulus)
  ∧ (Value_modulus ≤ 1000 * 60 →
       ∃ q, op_div_assign (op_mul_assign (mkUnifiedTime 1000) 60) 60 = Returned q
            ∧ value q < 1000).
Proof.
  apply (UnifiedTime_mul_div_round_trip (mkUnifiedTime 1000) 60);
    unfold is_Value, Value_modulus; simpl; lia.
Defined.

(** X4: [t /= factor; t *= factor] never overflows: it rounds [t] down
    to a multiple of [factor], losing less than [factor]. *)
Theorem UnifiedTime_div_mul_rounds_down (t : UnifiedTime) (factor : Z) :
  is_Value (value t) → is_Value factor → factor ≠ 0 →
  ∃ q, op_div_assign t factor = Returned q
       ∧ value (op_mul_assign q factor) = value t - value t mod factor
       ∧ value t - factor < value (op_mul_assign q factor) ≤ value t.
Proof.
  destruct t as [a]. simpl. intros Ha Hf Hne.
  unfold op_div_assign, op_mul_assign, Value_mul, Value_div, wrapValue. simpl.
  unfold is_Value in *.
  destruct (Z.eqb_spec factor 0) as [|_]; [done|].
  assert (Hf0 : 0 < factor) by lia.
  eexists. split; [reflexivity|]. simpl.
  rewrite Z.quot_div_nonneg by lia.
  pose proof (Z.mod_pos_bound a factor Hf0) as Hr.
  pose proof (Z.div_mod a factor Hne) as Hdm.
  assert (0 ≤ a / factor) by (apply Z.div_pos; lia).
  assert (a / factor ≤ a) by (apply Z.div_le_upper_bound; nia).
  rewrite (Z.mod_small (a / factor)) by lia.
  assert (Hprod : a / factor * factor = a - a mod factor) by lia.
  rewrite Hprod. rewrite Z.mod_small by lia. lia.
Qed.

Lemma UnifiedTime_div_mul_rounds_down_witness :
  ∃ q, op_div_assign (mkUnifiedTime 1000) 60 = Returned q
       ∧ value (op_mul_assign q 60) = 1000 - 1000 mod 60
       ∧ 1000 - 60 < value (op_mul_assign q 60) ≤ 1000.
Proof.
  apply (UnifiedTime_div_mul_rounds_down (mkUnifiedTime 1000) 60);
    unfold is_Value, Value_modulus; simpl; lia.
Defined.

(** X5: the six comparisons of [UnifiedTime] are those of one total
    order: exactly one of [<], [==], [>] holds, [<=] and [>=] are the
    negations of [>] and [<], [!=] is the negation of [==], [==] holds
    only between equal times, and [<=] is transitive. *)
Theorem UnifiedTime_comparisons_total_order (t u w : UnifiedTime) :
  ((op_lt t u = true ∧ op_eq t u = false ∧ op_gt t u = false)
   ∨ (op_lt t u = false ∧ op_eq t u = true ∧ op_gt t u = false)
   ∨ (op_lt t u = false ∧ op_eq t u = false ∧ op_gt t u = true))
  ∧ op_le t u = negb (op_gt t u)
  ∧ op_ge t u = negb (op_lt t u)
  ∧ op_ne t u = negb (op_eq t u)
  ∧ op_gt t u = op_lt u t
  ∧ (op_eq t u = true ↔ t = u)
  ∧ (op_le t u = true → op_le u w = true → op_le t w = true).
Proof.
  destruct t as [a], u as [b], w as [c].
  unfold op_lt, op_le, op_gt, op_ge, op_eq, op_ne. simpl.
  rewrite Z.gtb_ltb, Z.geb_leb.
  split_and!.
  - destruct (Z.ltb_spec a b), (Z.eqb_spec a b), (Z.ltb_spec b a);
      first [lia | by left | by right; left | by right; right].
  - destruct (Z.leb_spec a b), (Z.ltb_spec b a); (done || lia).
  - destruct (Z.leb_spec b a), (Z.ltb_spec a b); (done || lia).
  - done.
  - done.
  - split; [by intros ->%Z.eqb_eq | intros [= ->]; apply Z.eqb_refl].
  - rewrite !Z.leb_le. lia.
Qed.

(** X6: [polymorphic_downcast] never returns a null pointer: it aborts
    on a null pointer as on a failed cast.  [polymorphic_downcast_or_null]
    returns null for a null pointer, and only then, and does what
    [polymorphic_downcast] does on any other pointer. *)
Theorem polymorphic_downcast_null_and_failure
    {Base Derived : Type} (dynamic_cast : Base → option Derived) :
  polymorphic_downcast dynamic_cast None = Aborted
  ∧ polymorphic_downcast_or_null dynamic_cast None = Completed None
  ∧ (∀ b, polymorphic_downcast_or_null dynamic_cast (Some b)
          = polymorphic_downcast dynamic_cast (Some b))
  ∧ (∀ b, polymorphic_downcast dynamic_cast (Some b)
          = match dynamic_cast b with
            | Some d => Completed (Some d)
            | None => Aborted
            end)
  ∧ (∀ base derived,
       polymorphic_downcast dynamic_cast base = Completed derived →
       ∃ b d, base = Some b ∧ dynamic_cast b = Some d ∧ derived = Some d)
  ∧ (∀ base,
       polymorphic_downcast_or_null dynamic_cast base = Completed None
       ↔ base = None).
Proof.
  split_and!; try done.
  - intros b. unfold polymorphic_downcast. simpl. by destruct (dynamic_cast b).
  - intros [b|] derived; unfold polymorphic_downcast; simpl; [|done].
    destruct (dynamic_cast b) as [d|] eqn:E; [|done].
    intros [= <-]. by exists b, d.
  - intros [b|]; unfold polymorphic_downcast_or_null; simpl; [|done].
    destruct (dynamic_cast b); split; done.
Qed.

Lemma clampZ_cases (v minV maxV : Z) :
  clampZ v minV maxV = if v <? minV then minV else if maxV <? v then maxV else v.
Proof. unfold clampZ, clamp. by rewrite Z.gtb_ltb. Qed.

(** X7: for bounds [minV <= maxV], [clamp v minV maxV] is
    [max minV (min v maxV)], and it is monotone in [v]. *)
Theorem clamp_is_max_min_and_monotone (v v' minV maxV : Z) :
  minV ≤ maxV →
  clampZ v minV maxV = Z.max minV (Z.min v maxV)
  ∧ (v ≤ v' → clampZ v minV maxV ≤ clampZ v' minV maxV).
Proof.
  intros Hmm. rewrite !clampZ_cases.
  destruct (Z.ltb_spec v minV), (Z.ltb_spec maxV v),
    (Z.ltb_spec v' minV), (Z.ltb_spec maxV v'); lia.
Qed.

Lemma clamp_is_max_min_and_monotone_witness :
  clampZ 12 (-5) 7 = Z.max (-5) (Z.min 12 7)
  ∧ (12 ≤ 20 → clampZ 12 (-5) 7 ≤ clampZ 20 (-5) 7).
Proof.
  apply (clamp_is_max_min_and_monotone 12 20 (-5) 7). lia.
Defined.



End UtilsOperatorsFacts.

(** ** More properties of the tree *)

Module TreeAccessorsFacts.
Import Tree TreeSpec TreeAccessors Examples AccessorExamples.

(** X9: [toNodeName] tells the classes apart: two nodes have the same
    name exactly when they are of the same class, whatever their
    members. *)
Theorem toNodeName_names_the_class (v1 v2 : Variant) :
  toNodeName v1 = toNodeName v2 ↔ class_of v1 = class_of v2.
Proof.
  destruct v1, v2; simpl; split; intros H; first [reflexivity | discriminate H].
Qed.

(** X10: the [LoadNode] built from a [StoreNode] addresses the memory
    the store addresses: both have the same [getMemoryAddr], and both
    take one word. *)
Theorem LoadNode_from_store_same_memory
    (addr_elsewhere size_elsewhere : Node → heap → Z)
    (h : heap) (store : loc) (s : Node) (varAddr : Z) :
  h !! store = Some s →
  variant s = StoreNode varAddr →
  ∃ load : Node,
    LoadNode_from_store store h = Returns load
    ∧ (∀ h', getMemoryAddr addr_elsewhere load h' = getMemoryAddr addr_elsewhere s h')
    ∧ (∀ h', getMemorySize size_elsewhere load h' = 1
             ∧ getMemorySize size_elsewhere s h' = 1).
Proof.
  intros Hs Hv. unfold LoadNode_from_store, deref. rewrite Hs. simpl.
  rewrite Hv. eexists. split; [reflexivity|].
  unfold getMemoryAddr, getMemorySize. simpl. by rewrite Hv.
Qed.

Lemma LoadNode_from_store_same_memory_witness :
  ∃ load : Node,
    LoadNode_from_store 5%positive heap_with_store = Returns load
    ∧ (∀ h', getMemoryAddr (λ _ _, 0) load h'
             = getMemoryAddr (λ _ _, 0) (mkNode (StoreNode 42) [] pos_7_3) h')
    ∧ (∀ h', getMemorySize (λ _ _, 0) load h' = 1
             ∧ getMemorySize (λ _ _, 0) (mkNode (StoreNode 42) [] pos_7_3) h' = 1).
Proof.
  apply (LoadNode_from_store_same_memory (λ _ _, 0) (λ _ _, 0) heap_with_store
           5%positive (mkNode (StoreNode 42) [] pos_7_3) 42); reflexivity.
Defined.

(** X11: when an [ArrayReadNode] is built from an [ArrayWriteNode], it
    addresses the memory the write node addresses: the same
    [getMemoryAddr], one word each, and an index that is an immediate
    of the value of the index of the write node. *)
Theorem ArrayReadNode_from_write_same_memory
    (addr_elsewhere size_elsewhere : Node → heap → Z)
    (h h' : heap) (write : loc) (w read : Node) :
  h !! write = Some w →
  ArrayReadNode_from_write write h = Returns (read, h') →
  getMemoryAddr addr_elsewhere read h' = getMemoryAddr addr_elsewhere w h'
  ∧ getMemorySize size_elsewhere read h' = 1
  ∧ getMemorySize size_elsewhere w h' = 1
  ∧ h' !! write = Some w
  ∧ ∃ c i index,
      head (children w) = Some c ∧ children read = [i] ∧ i ≠ c
      ∧ h' !! c = Some index ∧ h' !! i = Some index
      ∧ getMemorySize size_elsewhere index h' = 1.
Proof.
  intros Hw. unfold ArrayReadNode_from_write, deref. rewrite Hw. simpl.
  destruct (variant w) as [| | | | | | | | | | | | | | | |a sz name| | | | |] eqn:Hv;
    try done.
  destruct (children w) as [|c rest] eqn:Hc; [done|].
  destruct (dynamic_cast_ImmediateNode c h) as [index|] eqn:Hd; [|done].
  unfold dynamic_cast_ImmediateNode in Hd.
  destruct (h !! c) as [n|] eqn:Hn; [|done].
  destruct (variant n) eqn:Hvn; try done. injection Hd as ->.
  intros [= <- <-].
  assert (Hfresh : h !! fresh (dom h) = None) by apply not_elem_of_dom, is_fresh.
  assert (fresh (dom h) ≠ c) by (intros Heq; by rewrite Heq, Hn in Hfresh).
  assert (fresh (dom h) ≠ write) by (intros Heq; by rewrite Heq, Hw in Hfresh).
  unfold getMemoryAddr, getMemorySize. simpl. rewrite Hv.
  split_and!; try done.
  - by rewrite lookup_insert_ne.
  - exists c, (fresh (dom h)), index. destruct index as [iv ic ip]. simpl in *.
    rewrite lookup_insert_eq, lookup_insert_ne by done.
    subst iv. by split_and!.
Qed.

Lemma ArrayReadNode_from_write_same_memory_run :
  ArrayReadNode_from_write 1%positive heap_with_write
  = Returns (mkNode (ArrayReadNode 16 8 "a") [fresh (dom heap_with_write)] pos_7_3,
             <[fresh (dom heap_with_write) := mkNode (ImmediateNode 3) [] pos_7_3]>
               heap_with_write).
Proof. reflexivity. Qed.

Lemma ArrayReadNode_from_write_same_memory_witness :
  let read := mkNode (ArrayReadNode 16 8 "a") [fresh (dom heap_with_write)] pos_7_3 in
  let w := mkNode (ArrayWriteNode 16 8 "a") [2%positive] pos_7_3 in
  let h' := <[fresh (dom heap_with_write) := mkNode (ImmediateNode 3) [] pos_7_3]>
              heap_with_write in
  getMemoryAddr (λ _ _, 0) read h' = getMemoryAddr (λ _ _, 0) w h'
  ∧ getMemorySize (λ _ _, 0) read h' = 1
  ∧ getMemorySize (λ _ _, 0) w h' = 1
  ∧ h' !! 1%positive = Some w
  ∧ ∃ c i index,
      head (children w) = Some c ∧ children read = [i] ∧ i ≠ c
      ∧ h' !! c = Some index ∧ h' !! i = Some index
      ∧ getMemorySize (λ _ _, 0) index h' = 1.
Proof.
  apply (ArrayReadNode_from_write_same_memory (λ _ _, 0) (λ _ _, 0)
           heap_with_write _ 1%positive
           (mkNode (ArrayWriteNode 16 8 "a") [2%positive] pos_7_3)).
  - reflexivity.
  - exact ArrayReadNode_from_write_same_memory_run.
Defined.

Lemma addValue_appends (h : heap) (this : loc) (n : Node) (values : list Z) (v : Z) :
  h !! this = Some n →
  variant n = StaticVectorNode values →
  addValue this v h
  = Returns (<[this := mkNode (StaticVectorNode (values ++ [v])) (children n)
                              (sourcePos n)]> h).
Proof.
  intros Hn Hv. unfold addValue, deref. rewrite Hn. simpl. by rewrite Hv.
Qed.

(** X12: a run of [addValue] calls appends the values in the order of
    the calls to those of the vector, changes no other member and no
    other object, and [getMemorySize] grows by the number of calls (as
    long as the count fits an [unsigned]). *)
Theorem addValues_appends_in_order
    (size_elsewhere : Node → heap → Z)
    (vs : list Z) (h : heap) (this : loc) (n : Node) (values : list Z) :
  h !! this = Some n →
  variant n = StaticVectorNode values →
  ∃ (h' : heap) (n' : Node),
    addValues this vs h = Returns h'
    ∧ h' !! this = Some n'
    ∧ variant n' = StaticVectorNode (values ++ vs)
    ∧ children n' = children n
    ∧ sourcePos n' = sourcePos n
    ∧ (∀ q, q ≠ this → h' !! q = h !! q)
    ∧ (Z.of_nat (length (values ++ vs)) < unsigned_modulus →
       getMemorySize size_elsewhere n' h'
       = getMemorySize size_elsewhere n h + Z.of_nat (length vs)).
Proof.
  revert h n values. induction vs as [|v vs IH]; intros h n values Hn Hv.
  - exists h, n. simpl. rewrite app_nil_r.
    split_and!; try done. intros _. lia.
  - simpl. rewrite (addValue_appends h this n values v Hn Hv). simpl.
    set (n1 := mkNode (StaticVectorNode (values ++ [v])) (children n) (sourcePos n)).
    destruct (IH (<[this := n1]> h) n1 (values ++ [v])) as
      (h' & n' & Hrun & Hat & Hvar & Hch & Hpos & Hframe & Hsize);
      [apply lookup_insert_eq | done |].
    exists h', n'. rewrite <- app_assoc in Hvar, Hsize. simpl in Hvar, Hsize.
    split_and!; try done.
    + intros q Hq. rewrite Hframe by done. by rewrite lookup_insert_ne.
    + intros Hfit. rewrite Hsize by done.
      assert (getMemorySize size_elsewhere n h
              = to_unsigned (Z.of_nat (length values))) as ->
        by (unfold getMemorySize; by rewrite Hv).
      assert (getMemorySize size_elsewhere n1 (<[this := n1]> h)
              = to_unsigned (Z.of_nat (length (values ++ [v])))) as -> by done.
      unfold to_unsigned, unsigned_modulus in *.
      rewrite length_app in Hfit. simpl in Hfit.
      rewrite !Z.mod_small; rewrite ?length_app; simpl; lia.
Qed.

Lemma addValues_appends_in_order_witness :
  ∃ (h' : heap) (n' : Node),
    addValues 7%positive [20; 30] heap_with_vector = Returns h'
    ∧ h' !! 7%positive = Some n'
    ∧ variant n' = StaticVectorNode ([10] ++ [20; 30])
    ∧ children n' = children (StaticVectorNode_of pos_7_3 10)
    ∧ sourcePos n' = sourcePos (StaticVectorNode_of pos_7_3 10)
    ∧ (∀ q, q ≠ 7%positive → h' !! q = heap_with_vector !! q)
    ∧ (Z.of_nat (length ([10] ++ [20; 30])) < unsigned_modulus →
       getMemorySize (λ _ _, 0) n' h'
       = getMemorySize (λ _ _, 0) (StaticVectorNode_of pos_7_3 10) heap_with_vector
         + Z.of_nat (length [20; 30])).
Proof.
  apply (addValues_appends_in_order (λ _ _, 0) [20; 30] heap_with_vector
           7%positive (StaticVectorNode_of pos_7_3 10) [10]); reflexivity.
Defined.

Lemma setWrite_sets_flag (h : heap) (p : loc) (n : Node)
    (arrayAddr arraySize : Z) (arrayName : string) (old new : bool) :
  h !! p = Some n →
  variant n = MemoryVectorNode arrayAddr arraySize arrayName old →
  setWrite p new h
  = Returns (<[p := mkNode (MemoryVectorNode arrayAddr arraySize arrayName new)
                           (children n) (sourcePos n)]> h).
Proof.
  intros Hn Hv. unfold setWrite, deref. rewrite Hn. simpl. by rewrite Hv.
Qed.

(** X13: the members of a shallow copy are its own: [setWrite] on the
    original after [shallowCopy] changes the flag of the original only,
    and [setWrite] on the copy changes the flag of the copy only. *)
Theorem setWrite_after_shallowCopy
    (h : heap) (this : loc) (n : Node)
    (arrayAddr arraySize : Z) (arrayName : string) (old new : bool) :
  h !! this = Some n →
  variant n = MemoryVectorNode arrayAddr arraySize arrayName old →
  ∃ (copy : loc) (h1 h2 h3 : heap),
    shallowCopy this h = Returns (copy, h1)
    ∧ copy ≠ this
    ∧ setWrite this new h1 = Returns h2
    ∧ h2 !! copy = Some n
    ∧ h2 !! this = Some (mkNode (MemoryVectorNode arrayAddr arraySize arrayName new)
                                (children n) (sourcePos n))
    ∧ setWrite copy new h1 = Returns h3
    ∧ h3 !! this = Some n
    ∧ h3 !! copy = Some (mkNode (MemoryVectorNode arrayAddr arraySize arrayName new)
                                (children n) (sourcePos n)).
Proof.
  intros Hn Hv.
  assert (Hfresh : h !! fresh (dom h) = None) by apply not_elem_of_dom, is_fresh.
  assert (Hne : fresh (dom h) ≠ this) by (intros Heq; by rewrite Heq, Hn in Hfresh).
  assert (Hcopy : copy_construct n = n) by (destruct n as [[] ? ?]; reflexivity).
  set (copy := fresh (dom h)) in *.
  set (h1 := <[copy := n]> h).
  assert (H1this : h1 !! this = Some n) by (unfold h1; by rewrite lookup_insert_ne).
  assert (H1copy : h1 !! copy = Some n) by apply lookup_insert_eq.
  set (n' := mkNode (MemoryVectorNode arrayAddr arraySize arrayName new)
                    (children n) (sourcePos n)).
  exists copy, h1, (<[this := n']> h1), (<[copy := n']> h1).
  split_and!.
  - unfold shallowCopy, deref. rewrite Hn. simpl. by rewrite Hcopy.
  - done.
  - by apply setWrite_sets_flag with old.
  - by rewrite lookup_insert_ne.
  - apply lookup_insert_eq.
  - by apply setWrite_sets_flag with old.
  - by rewrite lookup_insert_ne.
  - apply lookup_insert_eq.
Qed.

Lemma setWrite_after_shallowCopy_witness :
  ∃ (copy : loc) (h1 h2 h3 : heap),
    shallowCopy 4%positive heap_with_memory_vector = Returns (copy, h1)
    ∧ copy ≠ 4%positive
    ∧ setWrite 4%positive true h1 = Returns h2
    ∧ h2 !! copy = Some memory_vector
    ∧ h2 !! 4%positive = Some (mkNode (MemoryVectorNode 16 8 "a" true)
                                      (children memory_vector) (sourcePos memory_vector))
    ∧ setWrite copy true h1 = Returns h3
    ∧ h3 !! 4%positive = Some memory_vector
    ∧ h3 !! copy = Some (mkNode (MemoryVectorNode 16 8 "a" true)
                                (children memory_vector) (sourcePos memory_vector)).
Proof.
  apply (setWrite_after_shallowCopy heap_with_memory_vector 4%positive
           memory_vector 16 8 "a" false true); reflexivity.
Defined.

Lemma repr_same_object (h : heap) (p q : loc) (n : Node) (t : Ast) :
  h !! p = Some n → h !! q = Some n → repr h p t → repr h q t.
Proof.
  intros Hp Hq Hr. destruct Hr as [p n' sub Hn' Hsub].
  rewrite Hp in Hn'. injection Hn' as <-. by constructor.
Qed.

(** X14: the children of a shallow copy are those of the original: as
    long as neither the original nor the copy is itself changed,
    whatever is done to the other objects, the two stand for the same
    tree. *)
Theorem shallowCopy_stands_for_same_tree (h : heap) (this : loc) (n : Node) :
  h !! this = Some n →
  ∃ (copy : loc) (h1 : heap),
    shallowCopy this h = Returns (copy, h1)
    ∧ copy ≠ this
    ∧ ∀ h2 : heap,
        h2 !! this = h1 !! this →
        h2 !! copy = h1 !! copy →
        ∀ t, repr h2 this t ↔ repr h2 copy t.
Proof.
  intros Hn.
  assert (Hfresh : h !! fresh (dom h) = None) by apply not_elem_of_dom, is_fresh.
  assert (Hne : fresh (dom h) ≠ this) by (intros Heq; by rewrite Heq, Hn in Hfresh).
  assert (Hcopy : copy_construct n = n) by (destruct n as [[] ? ?]; reflexivity).
  unfold shallowCopy, deref. rewrite Hn. simpl. rewrite Hcopy.
  eexists _, _. split; [reflexivity|]. split; [done|].
  intros h2 Hthis Hcp t.
  rewrite lookup_insert_ne in Hthis by done. rewrite Hn in Hthis.
  rewrite lookup_insert_eq in Hcp.
  split; by apply repr_same_object with n.
Qed.

Lemma shallowCopy_stands_for_same_tree_witness :
  ∃ (copy : loc) (h1 : heap),
    shallowCopy 1%positive heap_with_sum = Returns (copy, h1)
    ∧ copy ≠ 1%positive
    ∧ ∀ h2 : heap,
        h2 !! 1%positive = h1 !! 1%positive →
        h2 !! copy = h1 !! copy →
        ∀ t, repr h2 1%positive t ↔ repr h2 copy t.
Proof.
  apply (shallowCopy_stands_for_same_tree heap_with_sum 1%positive
           (mkNode (BinaryArithmeticNode ASEBA_OP_ADD) [2%positive; 3%positive] pos_7_3)).
  reflexivity.
Defined.

End TreeAccessorsFacts.
